(** * CwaWeather-backend: the weather handler of [server.js]

    A shallow embedding of [getWeatherByCity] (server.js, lines 21-101) and
    of the forecast reshaping loop it contains, followed by the properties
    of the handler that the specification states.

    Conventions of the embedding.
    - A JavaScript string is its sequence of UTF-16 code units
      ([jsstring]); the two glyphs of the city-name substitution are both
      in the Basic Multilingual Plane, hence one code unit each.
    - The upstream payload is typed as the specification's data model
      (section 3): records for objects, lists for arrays.  What stays
      dynamic is array indexing: [a[i]] out of range is [undefined], and
      reading a property of [undefined] throws a [TypeError].
    - [try]/[catch] is an error monad ([result]); the single awaited call
      and the log line are the two effects of a small program type
      ([prog]) that an interpreter runs against an upstream.
    - The reshaping loop is embedded twice: as a pure function
      ([buildWeatherData]), and on a store in which the objects it
      creates and mutates are cells ([buildWeatherDataM]); the second is
      proved to compute the first and serves where a property is about
      successive runs.
    - The last part of the file goes beyond the specification: the
      handler case by case, what the loop reads of its input, and the
      two application-level middleware (lines 155-167). *)

From Stdlib Require Import String Ascii List NArith ZArith Bool Lia PeanoNat.
From Stdlib Require Import Permutation.
Import ListNotations.

Set Implicit Arguments.

(* ================================================================== *)
(** ** JavaScript strings *)
(* ================================================================== *)

Definition code_unit := N.
Definition jsstring := list code_unit.

(** An ASCII literal of the source as code units. *)
Fixpoint str (s : string) : jsstring :=
  match s with
  | EmptyString => []
  | String a s' => N_of_ascii a :: str s'
  end.

(** [===] on two strings. *)
Fixpoint jsstring_eqb (s t : jsstring) : bool :=
  match s, t with
  | [], [] => true
  | a :: s', b :: t' => N.eqb a b && jsstring_eqb s' t'
  | _, _ => false
  end.

(** Truthiness of a string: every string but the empty one. *)
Definition truthy (s : jsstring) : bool :=
  match s with [] => false | _ :: _ => true end.

(** The two glyphs of line 26: U+53F0 and U+81FA. *)
Definition tai_variant : code_unit := 0x53F0%N.
Definition tai_canonical : code_unit := 0x81FA%N.

(** [s.replace(/<U+53F0>/g, "<U+81FA>")]: the pattern is one code unit, so
    the global replace visits the code units left to right and rewrites
    each match in place. *)
Fixpoint replace_tai (s : jsstring) : jsstring :=
  match s with
  | [] => []
  | c :: s' =>
      if N.eqb c tai_variant then tai_canonical :: replace_tai s'
      else c :: replace_tai s'
  end.

(* ================================================================== *)
(** ** Exceptions and the error monad *)
(* ================================================================== *)

(** The [response] object that axios attaches to an error when the server
    answered with a status outside 2xx. *)
#[warnings="-register-all"]
Inductive json : Type :=
| JNull
| JBool (b : bool)
| JNumber (mantissa exponent : Z)
| JString (s : jsstring)
| JArray (items : list json)
| JObject (fields : list (jsstring * json)).

Record ErrorResponse := { err_status : N; err_data : json }.

(** What the [catch] clause can receive: a [TypeError] raised by reading
    a property of [undefined] (the property is recorded), or the error
    axios rejects with, whose [response] is present only when the upstream
    answered. *)
Inductive js_error : Type :=
| TypeError (reading : jsstring)
| AxiosError (message : jsstring) (response : option ErrorResponse).

(** [error.message].  For the [TypeError] this is V8's wording. *)
Definition error_message (e : js_error) : jsstring :=
  match e with
  | TypeError p =>
      str "Cannot read properties of undefined (reading '" ++ p ++ str "')"
  | AxiosError m _ => m
  end.

(** [error.response] *)
Definition error_response (e : js_error) : option ErrorResponse :=
  match e with
  | TypeError _ => None
  | AxiosError _ r => r
  end.

Inductive result (A : Type) : Type :=
| Ok (a : A)
| Throw (e : js_error).
Arguments Throw {A} e.

Definition bind {A B} (r : result A) (k : A -> result B) : result B :=
  match r with
  | Ok a => k a
  | Throw e => Throw e
  end.

Notation "x <- r ;; k" := (bind r (fun x => k))
  (at level 61, r at next level, right associativity).

(** [a[i].p]: the element at index [i], which must exist for its
    property [p] to be read. *)
Definition index_then_read {A} (a : list A) (i : nat) (p : string) : result A :=
  match nth_error a i with
  | Some x => Ok x
  | None => Throw (TypeError (str p))
  end.

(* ================================================================== *)
(** ** Data model *)
(* ================================================================== *)

Record ParameterValue := { parameterName : jsstring }.

Record TimeSlot := {
  ts_startTime : jsstring;
  ts_endTime : jsstring;
  parameter : ParameterValue
}.

Record WeatherElement := {
  elementName : jsstring;
  time : list TimeSlot
}.

Record RawLocationForecast := {
  locationName : jsstring;
  weatherElement : list WeatherElement
}.

(** [response.data.records] *)
Record Records := {
  datasetDescription : jsstring;
  location : list RawLocationForecast
}.

Record ForecastPeriod := {
  startTime : jsstring;
  endTime : jsstring;
  weather : jsstring;
  rain : jsstring;
  minTemp : jsstring;
  maxTemp : jsstring;
  comfort : jsstring;
  windSpeed : jsstring
}.

Record NormalizedForecast := {
  city : jsstring;
  updateTime : jsstring;
  forecasts : list ForecastPeriod
}.

(* ================================================================== *)
(** ** The reshaping loop (lines 56-84) *)
(* ================================================================== *)

Definition percent : jsstring := str "%".
(** U+00B0 followed by [C] *)
Definition degreeC : jsstring := 0xB0%N :: str "C".

Definition set_weather (v : jsstring) (f : ForecastPeriod) : ForecastPeriod :=
  {| startTime := startTime f; endTime := endTime f; weather := v;
     rain := rain f; minTemp := minTemp f; maxTemp := maxTemp f;
     comfort := comfort f; windSpeed := windSpeed f |}.
Definition set_rain (v : jsstring) (f : ForecastPeriod) : ForecastPeriod :=
  {| startTime := startTime f; endTime := endTime f; weather := weather f;
     rain := v; minTemp := minTemp f; maxTemp := maxTemp f;
     comfort := comfort f; windSpeed := windSpeed f |}.
Definition set_minTemp (v : jsstring) (f : ForecastPeriod) : ForecastPeriod :=
  {| startTime := startTime f; endTime := endTime f; weather := weather f;
     rain := rain f; minTemp := v; maxTemp := maxTemp f;
     comfort := comfort f; windSpeed := windSpeed f |}.
Definition set_maxTemp (v : jsstring) (f : ForecastPeriod) : ForecastPeriod :=
  {| startTime := startTime f; endTime := endTime f; weather := weather f;
     rain := rain f; minTemp := minTemp f; maxTemp := v;
     comfort := comfort f; windSpeed := windSpeed f |}.
Definition set_comfort (v : jsstring) (f : ForecastPeriod) : ForecastPeriod :=
  {| startTime := startTime f; endTime := endTime f; weather := weather f;
     rain := rain f; minTemp := minTemp f; maxTemp := maxTemp f;
     comfort := v; windSpeed := windSpeed f |}.
Definition set_windSpeed (v : jsstring) (f : ForecastPeriod) : ForecastPeriod :=
  {| startTime := startTime f; endTime := endTime f; weather := weather f;
     rain := rain f; minTemp := minTemp f; maxTemp := maxTemp f;
     comfort := comfort f; windSpeed := v |}.

(** The [switch] of lines 73-80; a name matching no [case] falls out of
    the statement with [forecast] untouched. *)
Definition switch_elementName (name : jsstring) (value : ParameterValue)
    (forecast : ForecastPeriod) : ForecastPeriod :=
  if jsstring_eqb name (str "Wx") then
    set_weather (parameterName value) forecast
  else if jsstring_eqb name (str "PoP") then
    set_rain (parameterName value ++ percent) forecast
  else if jsstring_eqb name (str "MinT") then
    set_minTemp (parameterName value ++ degreeC) forecast
  else if jsstring_eqb name (str "MaxT") then
    set_maxTemp (parameterName value ++ degreeC) forecast
  else if jsstring_eqb name (str "CI") then
    set_comfort (parameterName value) forecast
  else if jsstring_eqb name (str "WS") then
    set_windSpeed (parameterName value) forecast
  else forecast.

(** The callback of [forEach] (lines 71-81) at iteration [i] of the outer
    loop: [element.time[i].parameter] is read before the [switch], for
    every element. *)
Definition callback (i : nat) (forecast : ForecastPeriod)
    (element : WeatherElement) : result ForecastPeriod :=
  slot <- index_then_read (time element) i "parameter" ;;
  let value := parameter slot in
  Ok (switch_elementName (elementName element) value forecast).

(** [weatherElements.forEach(callback)], threading the mutated
    [forecast]; the first exception leaves the loop. *)
Fixpoint forEach (i : nat) (weatherElements : list WeatherElement)
    (forecast : ForecastPeriod) : result ForecastPeriod :=
  match weatherElements with
  | [] => Ok forecast
  | element :: rest =>
      forecast' <- callback i forecast element ;;
      forEach i rest forecast'
  end.

(** One iteration of the [for] loop (lines 60-83): the completed
    [forecast] for index [i]. *)
Definition iteration (weatherElements : list WeatherElement) (i : nat)
    : result ForecastPeriod :=
  first <- index_then_read weatherElements 0 "time" ;;
  slot <- index_then_read (time first) i "startTime" ;;
  let forecast :=
    {| startTime := ts_startTime slot; endTime := ts_endTime slot;
       weather := []; rain := []; minTemp := []; maxTemp := [];
       comfort := []; windSpeed := [] |} in
  forEach i weatherElements forecast.

(** [for (let i = ...; i < timeCount; i++)] with [remaining] iterations
    left to run from [i]; [acc] is [weatherData.forecasts] and [push]
    appends at its end. *)
Fixpoint for_loop (weatherElements : list WeatherElement)
    (remaining i : nat) (acc : list ForecastPeriod)
    : result (list ForecastPeriod) :=
  match remaining with
  | O => Ok acc
  | S remaining' =>
      forecast <- iteration weatherElements i ;;
      for_loop weatherElements remaining' (S i) (acc ++ [forecast])
  end.

(** Lines 50-84: from the matched location to the finished
    [weatherData]. *)
Definition buildWeatherData (records : Records)
    (locationData : RawLocationForecast) : result NormalizedForecast :=
  let weatherElements := weatherElement locationData in
  first <- index_then_read weatherElements 0 "time" ;;
  let timeCount := length (time first) in
  fs <- for_loop weatherElements timeCount 0 [] ;;
  Ok {| city := locationName locationData;
        updateTime := datasetDescription records;
        forecasts := fs |}.

(* ================================================================== *)
(** ** The handler (lines 21-101) *)
(* ================================================================== *)

(** [process.env]: the key is [undefined] when the variable is unset. *)
Record Env := { CWA_API_KEY : option jsstring }.

(** [req.params] of the route [/api/weather/:city]. *)
Record Request := { params_city : jsstring }.

(** The [params] object of the outbound call. *)
Record AxiosParams := {
  params_Authorization : option jsstring;
  params_locationName : jsstring
}.

(** How the awaited [axios.get] settles: it resolves with
    [response.data.records], or rejects with an error that carries a
    [response] exactly when the upstream answered. *)
Inductive axios_outcome : Type :=
| Resolved (records : Records)
| Rejected (message : jsstring) (response : option ErrorResponse).

(** What [res.status(..).json(..)] sends. *)
Record HttpResponse := { status : N; body : json }.

Definition CWA_API_BASE_URL : jsstring := str "https://opendata.cwa.gov.tw/api".

(** The text of line 45 around the interpolated name:
    U+67E5 U+7121 [ '] before it, and after it ['] followed by
    U+8CC7 U+6599 U+FF0C U+8ACB U+78BA U+8A8D U+7E23 U+5E02 U+540D U+7A31
    U+662F U+5426 U+6B63 U+78BA U+3002. *)
Definition not_found_prefix : jsstring :=
  [0x67E5; 0x7121; 0x20; 0x27]%N.
Definition not_found_suffix : jsstring :=
  [0x27; 0x20; 0x8CC7; 0x6599; 0xFF0C; 0x8ACB; 0x78BA; 0x8A8D; 0x7E23;
   0x5E02; 0x540D; 0x7A31; 0x662F; 0x5426; 0x6B63; 0x78BA; 0x3002]%N.

(** The object literal of lines 60-69 as [res.json] serialises it, keys
    in insertion order. *)
Definition json_of_forecast (f : ForecastPeriod) : json :=
  JObject
    [ (str "startTime", JString (startTime f));
      (str "endTime", JString (endTime f));
      (str "weather", JString (weather f));
      (str "rain", JString (rain f));
      (str "minTemp", JString (minTemp f));
      (str "maxTemp", JString (maxTemp f));
      (str "comfort", JString (comfort f));
      (str "windSpeed", JString (windSpeed f)) ].

Definition json_of_weatherData (w : NormalizedForecast) : json :=
  JObject
    [ (str "city", JString (city w));
      (str "updateTime", JString (updateTime w));
      (str "forecasts", JArray (map json_of_forecast (forecasts w))) ].

(** The [try] block once the awaited call has settled (lines 40-89). *)
Definition try_block (req : Request) (outcome : axios_outcome)
    : result HttpResponse :=
  match outcome with
  | Rejected message response => Throw (AxiosError message response)
  | Resolved records =>
      match nth_error (location records) 0 with
      | None =>
          Ok {| status := 404;
                body := JObject
                  [ (str "success", JBool false);
                    (str "message",
                     JString (not_found_prefix ++ params_city req
                              ++ not_found_suffix)) ] |}
      | Some locationData =>
          weatherData <- buildWeatherData records locationData ;;
          Ok {| status := 200;
                body := JObject
                  [ (str "success", JBool true);
                    (str "data", json_of_weatherData weatherData) ] |}
      end
  end.

(** The response of the [catch] clause (lines 95-99). *)
Definition catch_block (error : js_error) : HttpResponse :=
  match error_response error with
  | Some response =>
      {| status := err_status response;
         body := JObject [ (str "error", err_data response) ] |}
  | None =>
      {| status := 500;
         body := JObject [ (str "error", JString (error_message error)) ] |}
  end.

(** Programs over the handler's two effects. *)
Inductive prog (A : Type) : Type :=
| Ret (a : A)
| AxiosGet (url : jsstring) (params : AxiosParams)
    (k : axios_outcome -> prog A)
| ConsoleError (args : list jsstring) (k : prog A).
Arguments AxiosGet {A} url params k.
Arguments ConsoleError {A} args k.

Definition getWeatherByCity (env : Env) (req : Request) : prog HttpResponse :=
  let city := params_city req in
  let city := if truthy city then replace_tai city else city in
  AxiosGet
    (CWA_API_BASE_URL ++ str "/v1/rest/datastore/F-C0032-001")
    {| params_Authorization := CWA_API_KEY env;
       params_locationName := city |}
    (fun outcome =>
       match try_block req outcome with
       | Ok response => Ret response
       | Throw error =>
           ConsoleError
             [ str "Get Weather Error (" ++ city ++ str "):";
               error_message error ]
             (Ret (catch_block error))
       end).

(** What a run leaves outside the process. *)
Inductive event : Type :=
| Requested (url : jsstring) (params : AxiosParams)
| Logged (args : list jsstring).

(** Running a program against an upstream. *)
Fixpoint run {A} (upstream : jsstring -> AxiosParams -> axios_outcome)
    (p : prog A) : list event * A :=
  match p with
  | Ret a => ([], a)
  | AxiosGet url params k =>
      let (tr, a) := run upstream (k (upstream url params)) in
      (Requested url params :: tr, a)
  | ConsoleError args k =>
      let (tr, a) := run upstream k in
      (Logged args :: tr, a)
  end.

(* ================================================================== *)
(** ** Vocabulary of the specification *)
(* ================================================================== *)

(** The six recognised element names and the mapping table of
    section 4.1: the name of each, the output field it feeds and the
    suffix appended to the value. *)
Inductive element_kind : Type := Wx | PoP | MinT | MaxT | CI | WS.

Definition all_kinds : list element_kind := [Wx; PoP; MinT; MaxT; CI; WS].

Definition kind_name (k : element_kind) : jsstring :=
  match k with
  | Wx => str "Wx" | PoP => str "PoP" | MinT => str "MinT"
  | MaxT => str "MaxT" | CI => str "CI" | WS => str "WS"
  end.

Definition field_of (k : element_kind) : ForecastPeriod -> jsstring :=
  match k with
  | Wx => weather | PoP => rain | MinT => minTemp
  | MaxT => maxTemp | CI => comfort | WS => windSpeed
  end.

Definition suffix_of (k : element_kind) : jsstring :=
  match k with
  | PoP => percent
  | MinT | MaxT => degreeC
  | Wx | CI | WS => []
  end.

(** An element's name is one of the six. *)
Definition recognized (e : WeatherElement) : bool :=
  existsb (fun k => jsstring_eqb (elementName e) (kind_name k)) all_kinds.

(** Some element of the sequence is named [name]. *)
Definition present (name : jsstring) (l : list WeatherElement) : bool :=
  existsb (fun e => jsstring_eqb (elementName e) name) l.

(** The last element of the sequence named [name]. *)
Fixpoint last_named (name : jsstring) (l : list WeatherElement)
    : option WeatherElement :=
  match l with
  | [] => None
  | e :: l' =>
      match last_named name l' with
      | Some e' => Some e'
      | None => if jsstring_eqb (elementName e) name then Some e else None
      end
  end.

(** The response a run ends with. *)
Definition response_of (upstream : jsstring -> AxiosParams -> axios_outcome)
    (env : Env) (req : Request) : HttpResponse :=
  snd (run upstream (getWeatherByCity env req)).

(** The events a run leaves. *)
Definition trace_of (upstream : jsstring -> AxiosParams -> axios_outcome)
    (env : Env) (req : Request) : list event :=
  fst (run upstream (getWeatherByCity env req)).

(** The outbound call of a request. *)
Definition outbound_url : jsstring :=
  CWA_API_BASE_URL ++ str "/v1/rest/datastore/F-C0032-001".
Definition outbound_params (env : Env) (req : Request) : AxiosParams :=
  {| params_Authorization := CWA_API_KEY env;
     params_locationName :=
       if truthy (params_city req) then replace_tai (params_city req)
       else params_city req |}.

(** The value the mapping table gives field [k] from slot [i] of
    element [e]. *)
Definition mapped_from (k : element_kind) (e : WeatherElement) (i : nat)
    (v : jsstring) : Prop :=
  exists slot, nth_error (time e) i = Some slot /\
               v = parameterName (parameter slot) ++ suffix_of k.

(** What the specification says of the record of index [i]: its times are
    those of the first element's slot [i]; a field whose name is present
    comes from slot [i] of the last element so named, through the table;
    a field whose name is absent is the empty string. *)
Definition period_spec (elems : list WeatherElement) (i : nat)
    (p : ForecastPeriod) : Prop :=
  (exists first slot0,
      nth_error elems 0 = Some first /\
      nth_error (time first) i = Some slot0 /\
      startTime p = ts_startTime slot0 /\ endTime p = ts_endTime slot0) /\
  forall k,
    match last_named (kind_name k) elems with
    | Some e => mapped_from k e i (field_of k p)
    | None => field_of k p = []
    end.

(** The recognised names present in a sequence (there are [K] of them)
    and those absent from it. *)
Definition present_kinds (elems : list WeatherElement) : list element_kind :=
  filter (fun k => present (kind_name k) elems) all_kinds.
Definition absent_kinds (elems : list WeatherElement) : list element_kind :=
  filter (fun k => negb (present (kind_name k) elems)) all_kinds.

(* ================================================================== *)
(** ** Sample payloads *)
(* ================================================================== *)

Definition slot (startT endT value : string) : TimeSlot :=
  {| ts_startTime := str startT; ts_endTime := str endT;
     parameter := {| parameterName := str value |} |}.

Definition sample_Wx : WeatherElement :=
  {| elementName := str "Wx";
     time := [ slot "2024-05-01 06:00:00" "2024-05-01 18:00:00" "Sunny";
               slot "2024-05-01 18:00:00" "2024-05-02 06:00:00" "Cloudy" ] |}.

Definition sample_PoP : WeatherElement :=
  {| elementName := str "PoP";
     time := [ slot "2024-05-01 06:00:00" "2024-05-01 18:00:00" "10";
               slot "2024-05-01 18:00:00" "2024-05-02 06:00:00" "30" ] |}.

(** An element the table does not know. *)
Definition sample_UVI : WeatherElement :=
  {| elementName := str "UVI";
     time := [ slot "2024-05-01 06:00:00" "2024-05-01 18:00:00" "7";
               slot "2024-05-01 18:00:00" "2024-05-02 06:00:00" "0" ] |}.

(** A second [Wx], later in the sequence. *)
Definition late_Wx : WeatherElement :=
  {| elementName := str "Wx";
     time := [ slot "2024-05-01 06:00:00" "2024-05-01 18:00:00" "Rainy";
               slot "2024-05-01 18:00:00" "2024-05-02 06:00:00" "Windy" ] |}.

(** A [PoP] with one slot fewer than [sample_Wx]. *)
Definition short_PoP : WeatherElement :=
  {| elementName := str "PoP";
     time := [ slot "2024-05-01 06:00:00" "2024-05-01 18:00:00" "10" ] |}.

(** A [PoP] with one slot more than [sample_Wx], its slots a day late. *)
Definition shifted_PoP : WeatherElement :=
  {| elementName := str "PoP";
     time := [ slot "2024-05-02 06:00:00" "2024-05-02 18:00:00" "50";
               slot "2024-05-02 18:00:00" "2024-05-03 06:00:00" "60";
               slot "2024-05-03 06:00:00" "2024-05-03 18:00:00" "70" ] |}.

(** U+81FA U+5317 U+5E02, and the same name written with U+53F0. *)
Definition taipei : jsstring := [0x81FA; 0x5317; 0x5E02]%N.
Definition taipei_variant : jsstring := [0x53F0; 0x5317; 0x5E02]%N.

Definition location_with (elems : list WeatherElement) : RawLocationForecast :=
  {| locationName := taipei; weatherElement := elems |}.

Definition records_with (locations : list RawLocationForecast) : Records :=
  {| datasetDescription := str "36-hour forecast"; location := locations |}.

Definition sample_location : RawLocationForecast :=
  location_with [sample_Wx; sample_PoP; sample_UVI].
Definition sample_records : Records := records_with [sample_location].

Definition sample_env : Env := {| CWA_API_KEY := Some (str "CWA-TEST-KEY") |}.
Definition sample_request : Request := {| params_city := taipei_variant |}.

Definition upstream_resolving (records : Records)
    : jsstring -> AxiosParams -> axios_outcome :=
  fun _ _ => Resolved records.

Definition invalid_key_response : ErrorResponse :=
  {| err_status := 401;
     err_data := JObject [ (str "message", JString (str "Unauthorized")) ] |}.

Definition upstream_rejecting (message : string)
    (response : option ErrorResponse)
    : jsstring -> AxiosParams -> axios_outcome :=
  fun _ _ => Rejected (str message) response.

(* ================================================================== *)
(** ** The application-level middleware (lines 155-167) *)
(* ================================================================== *)

(** U+627E U+4E0D U+5230 U+6B64 U+8DEF U+5F91 (line 157) and
    U+4F3A U+670D U+5668 U+5167 U+90E8 U+932F U+8AA4 (line 164). *)
Definition route_not_found_text : jsstring :=
  [0x627E; 0x4E0D; 0x5230; 0x6B64; 0x8DEF; 0x5F91]%N.
Definition internal_error_text : jsstring :=
  [0x4F3A; 0x670D; 0x5668; 0x5167; 0x90E8; 0x932F; 0x8AA4]%N.

(** The last-resort 404 middleware (lines 156-158). *)
Definition notFoundHandler : prog HttpResponse :=
  Ret {| status := 404;
         body := JObject [ (str "error", JString route_not_found_text) ] |}.

(** The global error middleware (lines 161-167), given [err.stack] and
    [err.message]. *)
Definition errorHandler (stack message : jsstring) : prog HttpResponse :=
  ConsoleError [stack]
    (Ret {| status := 500;
            body := JObject
              [ (str "error", JString internal_error_text);
                (str "message", JString message) ] |}).

(* ================================================================== *)
(** ** What the loop reads of an element *)
(* ================================================================== *)

(** The name of an element and the values of its first [n] slots. *)
Definition read_by (n : nat) (e : WeatherElement)
    : jsstring * list jsstring :=
  (elementName e,
   map (fun s => parameterName (parameter s)) (firstn n (time e))).

(** An element cut down to its first [m] slots. *)
Definition truncate (m : nat) (e : WeatherElement) : WeatherElement :=
  {| elementName := elementName e; time := firstn m (time e) |}.

(** The values of [sample_PoP] under other times, with one slot more. *)
Definition redated_PoP : WeatherElement :=
  {| elementName := str "PoP";
     time := [ slot "2024-06-01 00:00:00" "2024-06-01 12:00:00" "10";
               slot "2024-06-01 12:00:00" "2024-06-02 00:00:00" "30";
               slot "2024-06-02 00:00:00" "2024-06-02 12:00:00" "90" ] |}.

Definition sample_MinT : WeatherElement :=
  {| elementName := str "MinT";
     time := [ slot "2024-05-01 06:00:00" "2024-05-01 18:00:00" "21";
               slot "2024-05-01 18:00:00" "2024-05-02 06:00:00" "19" ] |}.

(* ================================================================== *)
(** ** The normalizer on a store (lines 50-84) *)
(* ================================================================== *)

(** The same lines once more, this time with the objects they create and
    mutate kept in a store: [weatherData], its [forecasts] array and each
    [forecast] are cells named by references, allocated by the object and
    array literals and changed in place by the assignments of the
    [switch] and by [push].  The parsed upstream answer is a cell of the
    same store, read afresh at every access. *)
Definition ref := nat.

Inductive cell : Type :=
| CRecords (records : Records)
| CWeatherData (wd_city wd_updateTime : jsstring) (wd_forecasts : ref)
| CArray (items : list ref)
| CForecast (forecast : ForecastPeriod).

Definition store := list cell.

(** How a computation on the store ends: with a value, with a JavaScript
    exception, or on a reference that does not hold the kind of object
    the variable is bound to. *)
Inductive outcome (A : Type) : Type :=
| Returned (a : A)
| Raised (e : js_error)
| Dangling.
Arguments Raised {A} e.
Arguments Dangling {A}.

Definition M (A : Type) : Type := store -> outcome A * store.

Definition mret {A} (a : A) : M A := fun h => (Returned a, h).

Definition mbind {A B} (m : M A) (k : A -> M B) : M B :=
  fun h =>
    match m h with
    | (Returned a, h') => k a h'
    | (Raised e, h') => (Raised e, h')
    | (Dangling, h') => (Dangling, h')
    end.

Notation "x <~ m ;; k" := (mbind m (fun x => k))
  (at level 61, m at next level, right associativity).

Definition lift {A} (r : result A) : M A :=
  fun h => (match r with Ok a => Returned a | Throw e => Raised e end, h).

Definition dangling {A} : M A := fun h => (Dangling, h).

(** A literal allocates the next reference. *)
Definition alloc (c : cell) : M ref :=
  fun h => (Returned (length h), h ++ [c]).

Definition read (r : ref) : M cell :=
  fun h =>
    match nth_error h r with
    | Some c => (Returned c, h)
    | None => (Dangling, h)
    end.

Fixpoint update (h : store) (r : ref) (c : cell) : store :=
  match h, r with
  | [], _ => []
  | _ :: h', O => c :: h'
  | c0 :: h', S r' => c0 :: update h' r' c
  end.

Definition write (r : ref) (c : cell) : M unit :=
  fun h =>
    if r <? length h then (Returned tt, update h r c) else (Dangling, h).

Definition read_records (r : ref) : M Records :=
  c <~ read r ;;
  match c with CRecords records => mret records | _ => dangling end.

Definition read_forecast (r : ref) : M ForecastPeriod :=
  c <~ read r ;;
  match c with CForecast f => mret f | _ => dangling end.

Definition read_array (r : ref) : M (list ref) :=
  c <~ read r ;;
  match c with CArray items => mret items | _ => dangling end.

(** [weatherData.forecasts] *)
Definition read_forecasts (r : ref) : M ref :=
  c <~ read r ;;
  match c with CWeatherData _ _ arr => mret arr | _ => dangling end.

(** [locationData], that is [response.data.records.location[0]], read
    from the store. *)
Definition locationDataM (input : ref) : M RawLocationForecast :=
  records <~ read_records input ;;
  lift (index_then_read (location records) 0 "locationName").

(** The callback of [forEach]: the assignment of the matching [case]
    changes the [forecast] object in place. *)
Definition callbackM (i : nat) (forecast : ref) (element : WeatherElement)
    : M unit :=
  slot <~ lift (index_then_read (time element) i "parameter") ;;
  let value := parameter slot in
  f <~ read_forecast forecast ;;
  write forecast (CForecast (switch_elementName (elementName element) value f)).

Fixpoint forEachM (i : nat) (weatherElements : list WeatherElement)
    (forecast : ref) : M unit :=
  match weatherElements with
  | [] => mret tt
  | element :: rest =>
      _ <~ callbackM i forecast element ;;
      forEachM i rest forecast
  end.

(** [weatherData.forecasts.push(forecast)] *)
Definition pushM (weatherData forecast : ref) : M unit :=
  arr <~ read_forecasts weatherData ;;
  items <~ read_array arr ;;
  write arr (CArray (items ++ [forecast])).

(** One iteration of the [for] loop: a new [forecast] object, the
    [forEach] over the elements, the [push]. *)
Definition iterationM (input weatherData : ref) (i : nat) : M unit :=
  locationData <~ locationDataM input ;;
  let weatherElements := weatherElement locationData in
  first <~ lift (index_then_read weatherElements 0 "time") ;;
  slot <~ lift (index_then_read (time first) i "startTime") ;;
  forecast <~ alloc (CForecast
    {| startTime := ts_startTime slot; endTime := ts_endTime slot;
       weather := []; rain := []; minTemp := []; maxTemp := [];
       comfort := []; windSpeed := [] |}) ;;
  _ <~ forEachM i weatherElements forecast ;;
  pushM weatherData forecast.

Fixpoint for_loopM (input weatherData : ref) (remaining i : nat) : M unit :=
  match remaining with
  | O => mret tt
  | S remaining' =>
      _ <~ iterationM input weatherData i ;;
      for_loopM input weatherData remaining' (S i)
  end.

(** Lines 50-84 on the store; the value is the reference of
    [weatherData]. *)
Definition buildWeatherDataM (input : ref) : M ref :=
  locationData <~ locationDataM input ;;
  records <~ read_records input ;;
  arr <~ alloc (CArray []) ;;
  weatherData <~ alloc (CWeatherData (locationName locationData)
                                     (datasetDescription records) arr) ;;
  locationData <~ locationDataM input ;;
  let weatherElements := weatherElement locationData in
  first <~ lift (index_then_read weatherElements 0 "time") ;;
  let timeCount := length (time first) in
  _ <~ for_loopM input weatherData timeCount 0 ;;
  mret weatherData.

(** What [res.json] finds when it walks [weatherData] in the store. *)
Fixpoint reify_items (h : store) (items : list ref)
    : option (list ForecastPeriod) :=
  match items with
  | [] => Some []
  | r :: rest =>
      match nth_error h r, reify_items h rest with
      | Some (CForecast f), Some fs => Some (f :: fs)
      | _, _ => None
      end
  end.

Definition reify (h : store) (r : ref) : option NormalizedForecast :=
  match nth_error h r with
  | Some (CWeatherData c u arr) =>
      match nth_error h arr with
      | Some (CArray items) =>
          option_map
            (fun fs => {| city := c; updateTime := u; forecasts := fs |})
            (reify_items h items)
      | _ => None
      end
  | _ => None
  end.

(* ================================================================== *)
(** ** Strings *)
(* ================================================================== *)

Lemma jsstring_eqb_eq (s t : jsstring) : jsstring_eqb s t = true <-> s = t.
Proof.
  revert t; induction s as [|a s IH]; intros [|b t]; simpl;
    try (split; [discriminate | discriminate]); try tauto.
  rewrite andb_true_iff, N.eqb_eq, IH.
  split; [intros [-> ->]; reflexivity | intros H; inversion H; auto].
Qed.

Lemma jsstring_eqb_refl (s : jsstring) : jsstring_eqb s s = true.
Proof. apply jsstring_eqb_eq; reflexivity. Qed.

Lemma jsstring_eqb_neq (s t : jsstring) : jsstring_eqb s t = false <-> s <> t.
Proof.
  rewrite <- jsstring_eqb_eq.
  destruct (jsstring_eqb s t); split; congruence.
Qed.

Lemma replace_tai_length (s : jsstring) : length (replace_tai s) = length s.
Proof.
  induction s as [|c s IH]; simpl; [reflexivity|].
  destruct (N.eqb c tai_variant); simpl; rewrite IH; reflexivity.
Qed.

Lemma replace_tai_nth (s : jsstring) (i : nat) :
  nth_error (replace_tai s) i =
  option_map (fun c => if N.eqb c tai_variant then tai_canonical else c)
             (nth_error s i).
Proof.
  revert i; induction s as [|c s IH]; intros [|i]; simpl; try reflexivity.
  - destruct (N.eqb c tai_variant); reflexivity.
  - destruct (N.eqb c tai_variant); simpl; apply IH.
Qed.

Lemma replace_tai_clean (s : jsstring) : ~ In tai_variant (replace_tai s).
Proof.
  induction s as [|c s IH]; simpl; [tauto|].
  destruct (N.eqb c tai_variant) eqn:E; simpl; intros [H|H]; try tauto.
  - discriminate H.
  - apply N.eqb_neq in E. congruence.
Qed.

Lemma replace_tai_id (s : jsstring) : ~ In tai_variant s -> replace_tai s = s.
Proof.
  induction s as [|c s IH]; simpl; intros H; [reflexivity|].
  destruct (N.eqb c tai_variant) eqn:E.
  - apply N.eqb_eq in E. tauto.
  - f_equal. apply IH. tauto.
Qed.

(* ================================================================== *)
(** ** The [switch] and the [forEach] *)
(* ================================================================== *)

Ltac case_names :=
  repeat match goal with
  | |- context [jsstring_eqb ?n ?l] =>
      is_var n;
      let E := fresh "E" in
      destruct (jsstring_eqb n l) eqn:E;
      [ apply jsstring_eqb_eq in E; subst n; simpl | ]
  end.

(** The [switch] writes the field of the kind the name denotes, and that
    field only. *)
Lemma switch_field (k : element_kind) (name : jsstring) (v : ParameterValue)
    (f : ForecastPeriod) :
  field_of k (switch_elementName name v f) =
  if jsstring_eqb name (kind_name k) then parameterName v ++ suffix_of k
  else field_of k f.
Proof.
  unfold switch_elementName.
  destruct k; simpl kind_name; simpl suffix_of; simpl field_of;
    case_names; simpl; rewrite ?app_nil_r; try reflexivity;
    try discriminate.
Qed.

Lemma switch_times (name : jsstring) (v : ParameterValue) (f : ForecastPeriod) :
  startTime (switch_elementName name v f) = startTime f /\
  endTime (switch_elementName name v f) = endTime f.
Proof.
  unfold switch_elementName; case_names; simpl; auto.
Qed.

(** A name outside the table leaves the record as it is. *)
Lemma switch_unrecognized (e : WeatherElement) (v : ParameterValue)
    (f : ForecastPeriod) :
  recognized e = false -> switch_elementName (elementName e) v f = f.
Proof.
  unfold recognized, all_kinds; cbn [existsb kind_name].
  rewrite !orb_false_iff. intros (H1 & H2 & H3 & H4 & H5 & H6 & _).
  unfold switch_elementName.
  rewrite H1, H2, H3, H4, H5, H6. reflexivity.
Qed.

Lemma forEach_ok (i : nat) (elems : list WeatherElement) :
  Forall (fun e => i < length (time e)) elems ->
  forall f0, exists f,
    forEach i elems f0 = Ok f /\
    startTime f = startTime f0 /\ endTime f = endTime f0 /\
    forall k,
      match last_named (kind_name k) elems with
      | Some e => mapped_from k e i (field_of k f)
      | None => field_of k f = field_of k f0
      end.
Proof.
  induction 1 as [|e rest He _ IH]; intros f0.
  - exists f0. simpl. auto.
  - apply nth_error_Some in He.
    destruct (nth_error (time e) i) as [slot|] eqn:Hs; [clear He|congruence].
    destruct (IH (switch_elementName (elementName e) (parameter slot) f0))
      as (f & Hf & Hst & Hen & Hk).
    destruct (switch_times (elementName e) (parameter slot) f0) as [T1 T2].
    exists f. simpl. unfold callback, index_then_read. rewrite Hs. simpl.
    repeat split; try congruence.
    intros k. specialize (Hk k).
    destruct (last_named (kind_name k) rest) as [e'|]; [exact Hk|].
    rewrite Hk, switch_field.
    destruct (jsstring_eqb (elementName e) (kind_name k)); [|reflexivity].
    exists slot. auto.
Qed.

Lemma forEach_throw (i : nat) (elems : list WeatherElement) :
  Exists (fun e => length (time e) <= i) elems ->
  forall f0, forEach i elems f0 = Throw (TypeError (str "parameter")).
Proof.
  induction elems as [|e rest IH]; intros HE f0.
  - inversion HE.
  - simpl. unfold callback, index_then_read.
    destruct (nth_error (time e) i) as [slot|] eqn:Hs; simpl; [|reflexivity].
    apply IH. inversion HE as [? ? Hh|]; subst; [|assumption].
    assert (i < length (time e)) by (apply nth_error_Some; congruence). lia.
Qed.

(** Elements whose name is outside the table can be dropped from a
    [forEach] that completes. *)
Lemma forEach_filter (i : nat) (elems : list WeatherElement) :
  forall f0 f, forEach i elems f0 = Ok f ->
               forEach i (filter recognized elems) f0 = Ok f.
Proof.
  induction elems as [|e rest IH]; intros f0 f; simpl; [auto|].
  unfold callback, index_then_read.
  destruct (nth_error (time e) i) as [slot|] eqn:Hs; simpl; [|discriminate].
  destruct (recognized e) eqn:R; simpl.
  - unfold callback, index_then_read. rewrite Hs. simpl. apply IH.
  - rewrite switch_unrecognized by assumption. apply IH.
Qed.

(* ================================================================== *)
(** ** The [for] loop *)
(* ================================================================== *)

Lemma iteration_ok (e0 : WeatherElement) (rest : list WeatherElement) (i : nat) :
  Forall (fun e => i < length (time e)) (e0 :: rest) ->
  exists p, iteration (e0 :: rest) i = Ok p /\ period_spec (e0 :: rest) i p.
Proof.
  intros HF.
  assert (H0 : i < length (time e0)) by (inversion HF; assumption).
  apply nth_error_Some in H0.
  destruct (nth_error (time e0) i) as [slot0|] eqn:Hs; [clear H0|congruence].
  unfold iteration, index_then_read. cbn [nth_error bind]. rewrite Hs.
  cbn [bind].
  match goal with
  | |- context [forEach i _ ?f0] =>
      destruct (forEach_ok HF f0) as (p & Hp & Hst & Hen & Hk)
  end.
  exists p. split; [exact Hp|]. split.
  - exists e0, slot0. simpl in Hst, Hen. auto.
  - intros k. specialize (Hk k).
    destruct (last_named (kind_name k) (e0 :: rest)); [exact Hk|].
    rewrite Hk. destruct k; reflexivity.
Qed.

Lemma iteration_throw (e0 : WeatherElement) (rest : list WeatherElement)
    (i : nat) :
  i < length (time e0) ->
  Exists (fun e => length (time e) <= i) rest ->
  iteration (e0 :: rest) i = Throw (TypeError (str "parameter")).
Proof.
  intros H0 HE.
  apply nth_error_Some in H0.
  destruct (nth_error (time e0) i) as [slot0|] eqn:Hs; [clear H0|congruence].
  unfold iteration, index_then_read. cbn [nth_error bind]. rewrite Hs.
  cbn [bind]. apply forEach_throw. right. exact HE.
Qed.

(** A loop that can read slot [i], ..., [i + n - 1] of every element
    appends [n] records to the accumulator, the [j]-th of them being the
    record of iteration [i + j]. *)
Lemma for_loop_ok (e0 : WeatherElement) (rest : list WeatherElement) (n : nat) :
  forall i acc,
    Forall (fun e => i + n <= length (time e)) (e0 :: rest) ->
    exists fs,
      for_loop (e0 :: rest) n i acc = Ok (acc ++ fs) /\
      length fs = n /\
      forall j, j < n ->
        exists p, nth_error fs j = Some p /\
                  iteration (e0 :: rest) (i + j) = Ok p.
Proof.
  induction n as [|n IH]; intros i acc HF.
  - exists []. simpl. rewrite app_nil_r. repeat split; auto. intros j Hj; lia.
  - destruct (@iteration_ok e0 rest i) as (p & Hp & _).
    { eapply Forall_impl; [|exact HF]. simpl. intros; lia. }
    destruct (IH (S i) (acc ++ [p])) as (fs & Hfs & Hlen & Hnth).
    { eapply Forall_impl; [|exact HF]. simpl. intros; lia. }
    exists (p :: fs). cbn [for_loop bind]. rewrite Hp. cbn [bind].
    rewrite Hfs, <- app_assoc. simpl. repeat split; auto.
    intros [|j] Hj.
    + exists p. rewrite Nat.add_0_r. auto.
    + destruct (Hnth j) as (q & Hq1 & Hq2); [lia|].
      exists q. simpl. rewrite Nat.add_succ_r. auto.
Qed.

(** A loop that meets an element too short for one of its indices
    throws, however many records it has already pushed. *)
Lemma for_loop_throw (e0 : WeatherElement) (rest : list WeatherElement)
    (n : nat) :
  forall i acc,
    i + n <= length (time e0) ->
    Forall (fun e => i <= length (time e)) rest ->
    Exists (fun e => length (time e) < i + n) rest ->
    for_loop (e0 :: rest) n i acc = Throw (TypeError (str "parameter")).
Proof.
  induction n as [|n IH]; intros i acc H0 HF HE.
  - exfalso. rewrite Forall_forall in HF. rewrite Exists_exists in HE.
    destruct HE as (e & He1 & He2). specialize (HF e He1). lia.
  - cbn [for_loop].
    destruct (Exists_dec (fun e => length (time e) <= i) rest) as [Hshort|Hlong].
    { intros e. destruct (le_dec (length (time e)) i); [left|right]; assumption. }
    + rewrite iteration_throw; [reflexivity|lia|exact Hshort].
    + assert (HF' : Forall (fun e => i < length (time e)) rest).
      { rewrite Forall_forall in *. intros e He.
        destruct (le_dec (length (time e)) i) as [Hle|Hgt]; [|lia].
        exfalso. apply Hlong. apply Exists_exists. eauto. }
      destruct (@iteration_ok e0 rest i) as (p & Hp & _).
      { constructor; [lia|exact HF']. }
      rewrite Hp. cbn [bind]. apply IH.
      * lia.
      * eapply Forall_impl; [|exact HF']. simpl. intros; lia.
      * eapply Exists_impl; [|exact HE]. simpl. intros; lia.
Qed.

Lemma for_loop_appends (elems : list WeatherElement) (n : nat) :
  forall i acc out,
    for_loop elems n i acc = Ok out ->
    exists fs, out = acc ++ fs /\ length fs = n.
Proof.
  induction n as [|n IH]; intros i acc out; cbn [for_loop].
  - intros H; inversion H; subst. exists []. rewrite app_nil_r. auto.
  - destruct (iteration elems i) as [p|err]; cbn [bind]; [|discriminate].
    intros H. apply IH in H. destruct H as (fs & -> & Hlen).
    exists (p :: fs). rewrite <- app_assoc. simpl. auto.
Qed.

Lemma iteration_filter (e0 : WeatherElement) (rest : list WeatherElement)
    (i : nat) (p : ForecastPeriod) :
  iteration (e0 :: rest) i = Ok p ->
  iteration (e0 :: filter recognized rest) i = Ok p.
Proof.
  unfold iteration, index_then_read. cbn [nth_error bind].
  destruct (nth_error (time e0) i) as [slot0|]; cbn [bind]; [|discriminate].
  cbn [forEach].
  match goal with
  | |- context [callback i ?f0 e0] => destruct (callback i f0 e0) as [f1|err]
  end; cbn [bind]; [|discriminate].
  apply forEach_filter.
Qed.

Lemma for_loop_filter (e0 : WeatherElement) (rest : list WeatherElement)
    (n : nat) :
  forall i acc out,
    for_loop (e0 :: rest) n i acc = Ok out ->
    for_loop (e0 :: filter recognized rest) n i acc = Ok out.
Proof.
  induction n as [|n IH]; intros i acc out; cbn [for_loop]; [auto|].
  destruct (iteration (e0 :: rest) i) as [p|err] eqn:Hp; cbn [bind];
    [|discriminate].
  apply iteration_filter in Hp. rewrite Hp. cbn [bind]. apply IH.
Qed.

(* ================================================================== *)
(** ** Names in a sequence of elements *)
(* ================================================================== *)

Lemma last_named_In (name : jsstring) (l : list WeatherElement)
    (e : WeatherElement) :
  last_named name l = Some e -> In e l /\ elementName e = name.
Proof.
  induction l as [|a l IH]; simpl; [discriminate|].
  destruct (last_named name l) as [e'|].
  - intros H; inversion H; subst. destruct IH as [? ?]; auto.
  - destruct (jsstring_eqb (elementName a) name) eqn:E; [|discriminate].
    intros H; inversion H; subst. apply jsstring_eqb_eq in E. auto.
Qed.

Lemma last_named_present (name : jsstring) (l : list WeatherElement) :
  present name l = true <-> exists e, last_named name l = Some e.
Proof.
  unfold present. induction l as [|a l IH]; simpl.
  - split; [discriminate|intros [e H]; discriminate].
  - rewrite orb_true_iff, IH.
    destruct (last_named name l) as [e'|].
    + split; eauto.
    + destruct (jsstring_eqb (elementName a) name).
      * split; eauto.
      * split; [intros [H|[e H]]; discriminate|intros [e H]; discriminate].
Qed.

Lemma last_named_absent (name : jsstring) (l : list WeatherElement) :
  present name l = false <-> last_named name l = None.
Proof.
  pose proof (last_named_present name l) as H.
  destruct (present name l), (last_named name l) as [e|].
  - split; discriminate.
  - destruct H as [H _]. destruct (H eq_refl); discriminate.
  - destruct H as [_ H]. assert (false = true) by (apply H; eauto).
    discriminate.
  - tauto.
Qed.

Lemma last_named_app (name : jsstring) (pre post : list WeatherElement)
    (e : WeatherElement) :
  elementName e = name ->
  Forall (fun e' => elementName e' <> name) post ->
  last_named name (pre ++ e :: post) = Some e.
Proof.
  intros He Hpost.
  assert (Hnone : last_named name post = None).
  { induction Hpost as [|a l Ha _ IH]; simpl; [reflexivity|].
    rewrite IH. apply jsstring_eqb_neq in Ha. rewrite Ha. reflexivity. }
  induction pre as [|a pre IH]; simpl.
  - rewrite Hnone, He, jsstring_eqb_refl. reflexivity.
  - rewrite IH. reflexivity.
Qed.

(** The kinds split into those present and those absent. *)
Lemma filter_negb_length {A} (f : A -> bool) (l : list A) :
  length (filter (fun x => negb (f x)) l) = length l - length (filter f l).
Proof.
  induction l as [|a l IH]; [reflexivity|].
  pose proof (filter_length_le f l) as Hle.
  cbn [filter]. destruct (f a); cbn [negb length]; rewrite IH; lia.
Qed.

Lemma kinds_partition (elems : list WeatherElement) :
  length (filter (fun k => negb (present (kind_name k) elems)) all_kinds) =
  6 - length (filter (fun k => present (kind_name k) elems) all_kinds).
Proof. apply (filter_negb_length (fun k => present (kind_name k) elems)). Qed.

(* ================================================================== *)
(** ** From the matched location to [weatherData] *)
(* ================================================================== *)

Lemma buildWeatherData_ok (records : Records) (loc : RawLocationForecast)
    (e0 : WeatherElement) (rest : list WeatherElement) :
  weatherElement loc = e0 :: rest ->
  Forall (fun e => length (time e0) <= length (time e)) rest ->
  exists fs,
    buildWeatherData records loc =
      Ok {| city := locationName loc;
            updateTime := datasetDescription records;
            forecasts := fs |} /\
    length fs = length (time e0) /\
    forall i, i < length (time e0) ->
      exists p, nth_error fs i = Some p /\ period_spec (e0 :: rest) i p.
Proof.
  intros Hw HF.
  assert (HF' : Forall (fun e => 0 + length (time e0) <= length (time e))
                       (e0 :: rest)).
  { constructor; [simpl; lia|exact HF]. }
  destruct (@for_loop_ok e0 rest (length (time e0)) 0 [] HF')
    as (fs & Hfs & Hlen & Hnth).
  exists fs. unfold buildWeatherData, index_then_read. rewrite Hw.
  cbn [nth_error bind]. rewrite Hfs. cbn [bind app].
  repeat split; auto.
  intros i Hi. destruct (Hnth i Hi) as (p & Hp & Hit).
  exists p. split; [exact Hp|].
  destruct (@iteration_ok e0 rest i) as (q & Hq & Hspec).
  { constructor; [exact Hi|].
    eapply Forall_impl; [|exact HF]. simpl. intros; lia. }
  simpl in Hit. congruence.
Qed.

Lemma buildWeatherData_throw (records : Records) (loc : RawLocationForecast)
    (e0 : WeatherElement) (rest : list WeatherElement) :
  weatherElement loc = e0 :: rest ->
  Exists (fun e => length (time e) < length (time e0)) rest ->
  buildWeatherData records loc = Throw (TypeError (str "parameter")).
Proof.
  intros Hw HE.
  unfold buildWeatherData, index_then_read. rewrite Hw.
  cbn [nth_error bind].
  rewrite for_loop_throw; [reflexivity|simpl; lia| |exact HE].
  apply Forall_forall. intros; lia.
Qed.

Lemma buildWeatherData_empty (records : Records) (loc : RawLocationForecast) :
  weatherElement loc = [] ->
  buildWeatherData records loc = Throw (TypeError (str "time")).
Proof.
  intros Hw. unfold buildWeatherData, index_then_read. rewrite Hw. reflexivity.
Qed.

Lemma buildWeatherData_filter (records : Records)
    (loc : RawLocationForecast) (e0 : WeatherElement)
    (rest : list WeatherElement) (w : NormalizedForecast) :
  weatherElement loc = e0 :: rest ->
  buildWeatherData records loc = Ok w ->
  buildWeatherData records
    {| locationName := locationName loc;
       weatherElement := e0 :: filter recognized rest |} = Ok w.
Proof.
  intros Hw. unfold buildWeatherData, index_then_read. rewrite Hw.
  cbn [nth_error bind weatherElement locationName].
  destruct (for_loop (e0 :: rest) (length (time e0)) 0 []) as [fs|err] eqn:Hfs;
    cbn [bind]; [|discriminate].
  apply for_loop_filter in Hfs. rewrite Hfs. cbn [bind]. auto.
Qed.

(* ================================================================== *)
(** ** Running the handler *)
(* ================================================================== *)

Lemma response_of_eq (upstream : jsstring -> AxiosParams -> axios_outcome)
    (env : Env) (req : Request) :
  response_of upstream env req =
  match try_block req (upstream outbound_url (outbound_params env req)) with
  | Ok response => response
  | Throw error => catch_block error
  end.
Proof.
  unfold response_of, getWeatherByCity. cbn [run].
  fold outbound_url. fold (outbound_params env req).
  destruct (try_block req (upstream outbound_url (outbound_params env req)));
    reflexivity.
Qed.

Lemma trace_of_eq (upstream : jsstring -> AxiosParams -> axios_outcome)
    (env : Env) (req : Request) :
  exists rest,
    trace_of upstream env req =
      Requested outbound_url (outbound_params env req) :: rest /\
    forall url params, ~ In (Requested url params) rest.
Proof.
  unfold trace_of, getWeatherByCity. cbn [run].
  fold outbound_url. fold (outbound_params env req).
  destruct (try_block req (upstream outbound_url (outbound_params env req)));
    cbn [run fst].
  - exists []. split; [reflexivity|]. simpl. tauto.
  - eexists. split; [reflexivity|]. simpl. intros url params [H|[]].
    discriminate H.
Qed.

(* ================================================================== *)
(** ** Runs on the sample payloads *)
(* ================================================================== *)

(** The scenario of the specification: [Wx] "Sunny" and [PoP] "10" at
    slot 0 give [weather] "Sunny" and [rain] "10%", the other four fields
    empty. *)
Example scenario_sunny :
  buildWeatherData sample_records sample_location =
  Ok {| city := taipei;
        updateTime := str "36-hour forecast";
        forecasts :=
          [ {| startTime := str "2024-05-01 06:00:00";
               endTime := str "2024-05-01 18:00:00";
               weather := str "Sunny"; rain := str "10%";
               minTemp := []; maxTemp := []; comfort := [];
               windSpeed := [] |};
            {| startTime := str "2024-05-01 18:00:00";
               endTime := str "2024-05-02 06:00:00";
               weather := str "Cloudy"; rain := str "30%";
               minTemp := []; maxTemp := []; comfort := [];
               windSpeed := [] |} ] |}.
Proof. vm_compute. reflexivity. Qed.

(** A transport error (no [response]) is a 500 carrying the message. *)
Example scenario_transport_error :
  response_of (upstream_rejecting "connect ECONNREFUSED" None)
              sample_env sample_request =
  {| status := 500;
     body := JObject
       [ (str "error", JString (str "connect ECONNREFUSED")) ] |}.
Proof. vm_compute. reflexivity. Qed.

(* ================================================================== *)
(** ** The normalizer's output *)
(* ================================================================== *)

(** C1.  For a location whose elements all have the [N] time slots of
    the first one, the normalizer returns exactly [N] records.  In each
    record, every one of the [K] recognised names present in the input
    has its field set through the mapping table from slot [i] of an
    element so named ("%" appended for [PoP], the degree sign and "C" for
    [MinT] and [MaxT]), the other [6 - K] fields are the empty string,
    and elements with a name outside the table change nothing: dropping
    them from the input gives the same result. *)
Theorem normalizer_shape (records : Records) (loc : RawLocationForecast)
    (e0 : WeatherElement) (rest : list WeatherElement) :
  weatherElement loc = e0 :: rest ->
  Forall (fun e => length (time e) = length (time e0)) rest ->
  exists fs,
    buildWeatherData records loc =
      Ok {| city := locationName loc;
            updateTime := datasetDescription records;
            forecasts := fs |} /\
    length fs = length (time e0) /\
    length (absent_kinds (e0 :: rest)) =
      6 - length (present_kinds (e0 :: rest)) /\
    (forall i, i < length (time e0) ->
       exists p,
         nth_error fs i = Some p /\
         Forall (fun k => exists e,
                     In e (e0 :: rest) /\ elementName e = kind_name k /\
                     mapped_from k e i (field_of k p))
                (present_kinds (e0 :: rest)) /\
         Forall (fun k => field_of k p = []) (absent_kinds (e0 :: rest))) /\
    buildWeatherData records
      {| locationName := locationName loc;
         weatherElement := e0 :: filter recognized rest |} =
    buildWeatherData records loc.
Proof.
  intros Hw Hvalid.
  assert (HF : Forall (fun e => length (time e0) <= length (time e)) rest).
  { eapply Forall_impl; [|exact Hvalid]. simpl. intros e He. rewrite He.
    apply le_n. }
  destruct (buildWeatherData_ok records loc Hw HF) as (fs & Hb & Hlen & Hnth).
  exists fs. split; [exact Hb|]. split; [exact Hlen|].
  split; [apply kinds_partition|]. split.
  - intros i Hi. destruct (Hnth i Hi) as (p & Hp & _ & Hfields).
    exists p. split; [exact Hp|]. split.
    + apply Forall_forall. intros k Hk.
      apply filter_In in Hk. destruct Hk as [_ Hk].
      apply last_named_present in Hk. destruct Hk as [e He].
      specialize (Hfields k). rewrite He in Hfields.
      apply last_named_In in He. destruct He as [Hin Hname].
      exists e. auto.
    + apply Forall_forall. intros k Hk.
      apply filter_In in Hk. destruct Hk as [_ Hk].
      apply negb_true_iff, last_named_absent in Hk.
      specialize (Hfields k). rewrite Hk in Hfields. exact Hfields.
  - rewrite Hb. apply (buildWeatherData_filter records loc Hw Hb).
Qed.

Lemma normalizer_shape_witness :
  weatherElement sample_location = sample_Wx :: [sample_PoP; sample_UVI] /\
  Forall (fun e => length (time e) = length (time sample_Wx))
         [sample_PoP; sample_UVI] /\
  present_kinds [sample_Wx; sample_PoP; sample_UVI] = [Wx; PoP] /\
  exists fs,
    buildWeatherData sample_records sample_location =
      Ok {| city := taipei; updateTime := str "36-hour forecast";
            forecasts := fs |} /\
    length fs = 2.
Proof.
  assert (Hw : weatherElement sample_location =
               sample_Wx :: [sample_PoP; sample_UVI]) by reflexivity.
  assert (Hv : Forall (fun e => length (time e) = length (time sample_Wx))
                      [sample_PoP; sample_UVI])
    by (repeat constructor).
  split; [exact Hw|]. split; [exact Hv|]. split; [reflexivity|].
  destruct (normalizer_shape sample_records sample_location Hw Hv)
    as (fs & Hb & Hlen & _).
  exists fs. split; [exact Hb|exact Hlen].
Defined.

(** C10.  When several elements share a recognised name, the field of
    that name in every record holds the value of the last of them in the
    sequence: for an input split as [pre ++ e :: post] where [e] bears
    the name of kind [k] and no element of [post] does, field [k] of
    record [i] is the table's image of slot [i] of [e], whatever [pre]
    contains. *)
Theorem last_duplicate_wins (records : Records) (loc : RawLocationForecast)
    (e0 : WeatherElement) (rest pre post : list WeatherElement)
    (e : WeatherElement) (k : element_kind) :
  weatherElement loc = e0 :: rest ->
  Forall (fun e' => length (time e0) <= length (time e')) rest ->
  e0 :: rest = pre ++ e :: post ->
  elementName e = kind_name k ->
  Forall (fun e' => elementName e' <> kind_name k) post ->
  exists fs,
    buildWeatherData records loc =
      Ok {| city := locationName loc;
            updateTime := datasetDescription records;
            forecasts := fs |} /\
    forall i, i < length (time e0) ->
      exists p slot,
        nth_error fs i = Some p /\
        nth_error (time e) i = Some slot /\
        field_of k p = parameterName (parameter slot) ++ suffix_of k.
Proof.
  intros Hw HF Hsplit Hname Hpost.
  destruct (buildWeatherData_ok records loc Hw HF) as (fs & Hb & _ & Hnth).
  exists fs. split; [exact Hb|].
  intros i Hi. destruct (Hnth i Hi) as (p & Hp & _ & Hfields).
  specialize (Hfields k).
  rewrite Hsplit, (@last_named_app _ pre post e Hname Hpost) in Hfields.
  destruct Hfields as (slot & Hslot & Hval).
  exists p, slot. auto.
Qed.

Lemma last_duplicate_wins_witness :
  present (kind_name Wx) [sample_Wx; sample_PoP] = true /\
  exists fs,
    buildWeatherData sample_records
      (location_with [sample_Wx; sample_PoP; late_Wx; sample_UVI]) =
      Ok {| city := taipei; updateTime := str "36-hour forecast";
            forecasts := fs |} /\
    exists p, nth_error fs 0 = Some p /\ weather p = str "Rainy".
Proof.
  split; [reflexivity|].
  destruct (@last_duplicate_wins sample_records
              (location_with [sample_Wx; sample_PoP; late_Wx; sample_UVI])
              sample_Wx [sample_PoP; late_Wx; sample_UVI]
              [sample_Wx; sample_PoP] [sample_UVI] late_Wx Wx)
    as (fs & Hb & Hnth).
  - reflexivity.
  - repeat constructor.
  - reflexivity.
  - reflexivity.
  - repeat constructor. discriminate.
  - exists fs. split; [exact Hb|].
    destruct (Hnth 0) as (p & slot & Hp & Hslot & Hval).
    + simpl. apply Nat.lt_0_succ.
    + exists p. split; [exact Hp|].
      simpl in Hslot. inversion Hslot; subst slot.
      simpl in Hval. rewrite Hval. reflexivity.
Defined.

(** C6.  Record [i] takes [startTime] and [endTime] from slot [i] of the
    first element, and the records stand in index order: the sequence of
    their times is the sequence of the first element's slot times, and
    each [push] of the loop adds its record after those already there. *)
Theorem periods_follow_first_element (records : Records)
    (loc : RawLocationForecast) (e0 : WeatherElement)
    (rest : list WeatherElement) :
  weatherElement loc = e0 :: rest ->
  Forall (fun e => length (time e0) <= length (time e)) rest ->
  exists fs,
    buildWeatherData records loc =
      Ok {| city := locationName loc;
            updateTime := datasetDescription records;
            forecasts := fs |} /\
    (forall i slot0, nth_error (time e0) i = Some slot0 ->
       exists p, nth_error fs i = Some p /\
                 startTime p = ts_startTime slot0 /\
                 endTime p = ts_endTime slot0) /\
    map startTime fs = map ts_startTime (time e0) /\
    map endTime fs = map ts_endTime (time e0) /\
    (forall n i acc out,
       for_loop (e0 :: rest) n i acc = Ok out ->
       exists pushed, out = acc ++ pushed /\ length pushed = n).
Proof.
  intros Hw HF.
  destruct (buildWeatherData_ok records loc Hw HF) as (fs & Hb & Hlen & Hnth).
  assert (Hpoint : forall i slot0, nth_error (time e0) i = Some slot0 ->
            exists p, nth_error fs i = Some p /\
                      startTime p = ts_startTime slot0 /\
                      endTime p = ts_endTime slot0).
  { intros i slot0 Hs.
    assert (Hi : i < length (time e0)) by (apply nth_error_Some; congruence).
    destruct (Hnth i Hi) as (p & Hp & (first & s & H0 & Hs' & Hst & Hen) & _).
    simpl in H0. inversion H0; subst first.
    exists p. split; [exact Hp|]. split; congruence. }
  assert (Hmaps : forall (g : ForecastPeriod -> jsstring)
                         (h : TimeSlot -> jsstring),
            (forall i slot0 p, nth_error (time e0) i = Some slot0 ->
               nth_error fs i = Some p -> g p = h slot0) ->
            map g fs = map h (time e0)).
  { intros g h Hgh. apply nth_error_ext. intros i.
    rewrite !nth_error_map.
    destruct (nth_error (time e0) i) as [slot0|] eqn:Hs.
    - destruct (Hpoint i slot0 Hs) as (p & Hp & _).
      rewrite Hp. simpl. f_equal. eapply Hgh; eauto.
    - apply nth_error_None in Hs. rewrite <- Hlen in Hs.
      apply nth_error_None in Hs. rewrite Hs. reflexivity. }
  exists fs. split; [exact Hb|]. split; [exact Hpoint|].
  split; [|split].
  - apply Hmaps. intros i slot0 p Hs Hp.
    destruct (Hpoint i slot0 Hs) as (q & Hq & Hst & _). congruence.
  - apply Hmaps. intros i slot0 p Hs Hp.
    destruct (Hpoint i slot0 Hs) as (q & Hq & _ & Hen). congruence.
  - intros n i acc out. apply for_loop_appends.
Qed.

Lemma periods_follow_first_element_witness :
  Forall (fun e => length (time sample_Wx) <= length (time e))
         [sample_PoP; sample_UVI] /\
  exists fs,
    buildWeatherData sample_records sample_location =
      Ok {| city := taipei; updateTime := str "36-hour forecast";
            forecasts := fs |} /\
    map startTime fs =
      [str "2024-05-01 06:00:00"; str "2024-05-01 18:00:00"].
Proof.
  assert (Hv : Forall (fun e => length (time sample_Wx) <= length (time e))
                      [sample_PoP; sample_UVI])
    by (repeat constructor).
  split; [exact Hv|].
  destruct (@periods_follow_first_element sample_records sample_location
              sample_Wx [sample_PoP; sample_UVI] eq_refl Hv)
    as (fs & Hb & _ & Hst & _).
  exists fs. split; [exact Hb|exact Hst].
Defined.

(* ================================================================== *)
(** ** Elements whose time sequence differs from the first one's *)
(* ================================================================== *)

(** C3, as stated, fails when the differing element is shorter: with a
    [PoP] of one slot after a [Wx] of two, iteration 1 reads
    [element.time[1].parameter] of [undefined]; the normalizer throws and
    the handler answers 500. *)
Lemma short_element_throws :
  weatherElement (location_with [sample_Wx; short_PoP]) =
    [sample_Wx; short_PoP] /\
  length (time short_PoP) <> length (time sample_Wx) /\
  buildWeatherData (records_with [location_with [sample_Wx; short_PoP]])
                   (location_with [sample_Wx; short_PoP]) =
    Throw (TypeError (str "parameter")) /\
  (forall w,
     buildWeatherData (records_with [location_with [sample_Wx; short_PoP]])
                      (location_with [sample_Wx; short_PoP]) <> Ok w) /\
  response_of
    (upstream_resolving (records_with [location_with [sample_Wx; short_PoP]]))
    sample_env sample_request =
    {| status := 500;
       body := JObject
         [ (str "error",
            JString (str "Cannot read properties of undefined (reading 'parameter')")) ] |}.
Proof.
  split; [reflexivity|]. split; [discriminate|]. split; [reflexivity|].
  split; [intros w; discriminate|]. vm_compute. reflexivity.
Qed.

(** C3, amended.  The normalizer compares no element's time sequence
    with the first one's.  When every other element has at least the [N]
    slots of the first, it returns [N] records without raising, and field
    [k] of record [i] is read from slot [i] of the element that feeds it,
    whatever that slot's own [startTime] and [endTime] and however many
    more slots the element has.  When some element has fewer than [N]
    slots, the normalizer throws a [TypeError], which the handler answers
    as HTTP 500 with the error's message. *)
Theorem no_time_validation (records : Records) (loc : RawLocationForecast)
    (e0 : WeatherElement) (rest : list WeatherElement) :
  weatherElement loc = e0 :: rest ->
  (Forall (fun e => length (time e0) <= length (time e)) rest ->
   exists fs,
     buildWeatherData records loc =
       Ok {| city := locationName loc;
             updateTime := datasetDescription records;
             forecasts := fs |} /\
     length fs = length (time e0) /\
     forall i, i < length (time e0) ->
       exists p, nth_error fs i = Some p /\
         forall k e, last_named (kind_name k) (e0 :: rest) = Some e ->
           exists slot, nth_error (time e) i = Some slot /\
             field_of k p = parameterName (parameter slot) ++ suffix_of k) /\
  (Exists (fun e => length (time e) < length (time e0)) rest ->
   buildWeatherData records loc = Throw (TypeError (str "parameter"))) /\
  (forall (upstream : jsstring -> AxiosParams -> axios_outcome)
          (env : Env) (req : Request) (others : list RawLocationForecast),
     upstream outbound_url (outbound_params env req) = Resolved records ->
     location records = loc :: others ->
     Exists (fun e => length (time e) < length (time e0)) rest ->
     response_of upstream env req =
       {| status := 500;
          body := JObject
            [ (str "error",
               JString (error_message (TypeError (str "parameter")))) ] |}).
Proof.
  intros Hw. split; [|split].
  - intros HF.
    destruct (buildWeatherData_ok records loc Hw HF) as (fs & Hb & Hlen & Hnth).
    exists fs. split; [exact Hb|]. split; [exact Hlen|].
    intros i Hi. destruct (Hnth i Hi) as (p & Hp & _ & Hfields).
    exists p. split; [exact Hp|].
    intros k e He. specialize (Hfields k). rewrite He in Hfields.
    exact Hfields.
  - intros HE. apply (buildWeatherData_throw records loc Hw HE).
  - intros upstream env req others Hup Hloc HE.
    rewrite response_of_eq, Hup. unfold try_block. rewrite Hloc.
    cbn [nth_error].
    rewrite (buildWeatherData_throw records loc Hw HE). reflexivity.
Qed.

Lemma no_time_validation_witness :
  length (time shifted_PoP) <> length (time sample_Wx) /\
  map ts_startTime (firstn 2 (time shifted_PoP)) <>
    map ts_startTime (time sample_Wx) /\
  (exists fs,
     buildWeatherData sample_records
       (location_with [sample_Wx; shifted_PoP]) =
       Ok {| city := taipei; updateTime := str "36-hour forecast";
             forecasts := fs |} /\
     exists p, nth_error fs 0 = Some p /\ rain p = str "50%") /\
  status (response_of
            (upstream_resolving
               (records_with [location_with [sample_Wx; short_PoP]]))
            sample_env sample_request) = 500%N.
Proof.
  split; [discriminate|]. split; [discriminate|]. split.
  - destruct (@no_time_validation sample_records
                (location_with [sample_Wx; shifted_PoP])
                sample_Wx [shifted_PoP] eq_refl) as [Hok _].
    destruct Hok as (fs & Hb & Hlen & Hnth); [repeat constructor|].
    exists fs. split; [exact Hb|].
    destruct (Hnth 0) as (p & Hp & Hfields); [simpl; apply Nat.lt_0_succ|].
    exists p. split; [exact Hp|].
    destruct (Hfields PoP shifted_PoP eq_refl) as (slot & Hslot & Hval).
    simpl in Hslot. inversion Hslot; subst slot.
    cbn [field_of] in Hval. rewrite Hval. reflexivity.
  - destruct (@no_time_validation
                (records_with [location_with [sample_Wx; short_PoP]])
                (location_with [sample_Wx; short_PoP])
                sample_Wx [short_PoP] eq_refl) as (_ & _ & H500).
    rewrite (H500 (upstream_resolving
                     (records_with [location_with [sample_Wx; short_PoP]]))
                  sample_env sample_request [] eq_refl eq_refl).
    + reflexivity.
    + constructor. simpl. apply Nat.lt_succ_diag_r.
Defined.

(* ================================================================== *)
(** ** The handler's responses *)
(* ================================================================== *)

(** C2, as stated, fails on the body: for an upstream that answers 401
    with [{"message": "Unauthorized"}], the handler keeps the status but
    its response body is not the upstream's body; it is an object that
    holds the upstream's body under the key [error]. *)
Lemma upstream_error_body_is_wrapped :
  upstream_rejecting "Request failed with status code 401"
      (Some invalid_key_response)
      outbound_url (outbound_params sample_env sample_request) =
    Rejected (str "Request failed with status code 401")
             (Some invalid_key_response) /\
  status (response_of
            (upstream_rejecting "Request failed with status code 401"
               (Some invalid_key_response))
            sample_env sample_request) = err_status invalid_key_response /\
  body (response_of
          (upstream_rejecting "Request failed with status code 401"
             (Some invalid_key_response))
          sample_env sample_request) <> err_data invalid_key_response.
Proof.
  split; [reflexivity|]. split; [reflexivity|].
  vm_compute. discriminate.
Qed.

(** C2, amended.  When the upstream call fails with an HTTP error
    response, the handler answers with the upstream's status code
    unchanged and with the body [{error: <upstream body>}], whose [error]
    member is the upstream's error body verbatim. *)
Theorem upstream_error_passthrough
    (upstream : jsstring -> AxiosParams -> axios_outcome)
    (env : Env) (req : Request) (message : jsstring)
    (response : ErrorResponse) :
  upstream outbound_url (outbound_params env req) =
    Rejected message (Some response) ->
  response_of upstream env req =
    {| status := err_status response;
       body := JObject [ (str "error", err_data response) ] |}.
Proof.
  intros Hup. rewrite response_of_eq, Hup. reflexivity.
Qed.

Lemma upstream_error_passthrough_witness :
  response_of
    (upstream_rejecting "Request failed with status code 401"
       (Some invalid_key_response))
    sample_env sample_request =
  {| status := 401;
     body := JObject
       [ (str "error",
          JObject [ (str "message", JString (str "Unauthorized")) ]) ] |}.
Proof.
  apply (@upstream_error_passthrough
           (upstream_rejecting "Request failed with status code 401"
              (Some invalid_key_response))
           sample_env sample_request
           (str "Request failed with status code 401")
           invalid_key_response).
  reflexivity.
Defined.

(** C5.  When the upstream resolves with an empty [location] array, the
    handler answers 404 with [success: false] and a message built around
    the city name of the request as it came in, not the name after the
    glyph substitution that was sent upstream. *)
Theorem not_found_names_original_city
    (upstream : jsstring -> AxiosParams -> axios_outcome)
    (env : Env) (req : Request) (records : Records) :
  upstream outbound_url (outbound_params env req) = Resolved records ->
  location records = [] ->
  response_of upstream env req =
    {| status := 404;
       body := JObject
         [ (str "success", JBool false);
           (str "message",
            JString (not_found_prefix ++ params_city req
                     ++ not_found_suffix)) ] |}.
Proof.
  intros Hup Hloc. rewrite response_of_eq, Hup.
  unfold try_block. rewrite Hloc. reflexivity.
Qed.

Lemma not_found_names_original_city_witness :
  params_locationName (outbound_params sample_env sample_request) = taipei /\
  response_of (upstream_resolving (records_with [])) sample_env sample_request =
    {| status := 404;
       body := JObject
         [ (str "success", JBool false);
           (str "message",
            JString (not_found_prefix ++ taipei_variant
                     ++ not_found_suffix)) ] |}.
Proof.
  split; [reflexivity|].
  apply (@not_found_names_original_city
           (upstream_resolving (records_with []))
           sample_env sample_request (records_with [])); reflexivity.
Defined.

(** C7.  When the matched location has an empty [weatherElement]
    sequence, reading [weatherElements[0].time] throws; no
    [NormalizedForecast] is built, and the handler answers 500 with the
    error's message. *)
Theorem empty_weatherElement_is_500
    (upstream : jsstring -> AxiosParams -> axios_outcome)
    (env : Env) (req : Request) (records : Records)
    (loc : RawLocationForecast) (others : list RawLocationForecast) :
  upstream outbound_url (outbound_params env req) = Resolved records ->
  location records = loc :: others ->
  weatherElement loc = [] ->
  buildWeatherData records loc = Throw (TypeError (str "time")) /\
  response_of upstream env req =
    {| status := 500;
       body := JObject
         [ (str "error",
            JString (error_message (TypeError (str "time")))) ] |}.
Proof.
  intros Hup Hloc Hw.
  pose proof (buildWeatherData_empty records loc Hw) as Hb.
  split; [exact Hb|].
  rewrite response_of_eq, Hup. unfold try_block. rewrite Hloc.
  cbn [nth_error]. rewrite Hb. reflexivity.
Qed.

Lemma empty_weatherElement_is_500_witness :
  response_of (upstream_resolving (records_with [location_with []]))
              sample_env sample_request =
    {| status := 500;
       body := JObject
         [ (str "error",
            JString (str "Cannot read properties of undefined (reading 'time')")) ] |}.
Proof.
  apply (@empty_weatherElement_is_500
           (upstream_resolving (records_with [location_with []]))
           sample_env sample_request
           (records_with [location_with []]) (location_with []) []);
    reflexivity.
Defined.

(** C8.  In the response of a successful request, the [city] of the
    forecast is the [locationName] of the first location of the upstream
    answer and its [updateTime] is the answer's
    [records.datasetDescription]. *)
Theorem city_and_updateTime_echo
    (upstream : jsstring -> AxiosParams -> axios_outcome)
    (env : Env) (req : Request) (records : Records)
    (loc : RawLocationForecast) (others : list RawLocationForecast)
    (w : NormalizedForecast) :
  upstream outbound_url (outbound_params env req) = Resolved records ->
  location records = loc :: others ->
  buildWeatherData records loc = Ok w ->
  response_of upstream env req =
    {| status := 200;
       body := JObject
         [ (str "success", JBool true);
           (str "data", json_of_weatherData w) ] |} /\
  city w = locationName loc /\
  updateTime w = datasetDescription records.
Proof.
  intros Hup Hloc Hb. split.
  - rewrite response_of_eq, Hup. unfold try_block. rewrite Hloc.
    cbn [nth_error]. rewrite Hb. reflexivity.
  - unfold buildWeatherData in Hb.
    destruct (index_then_read (weatherElement loc) 0 "time") as [first|err];
      cbn [bind] in Hb; [|discriminate].
    destruct (for_loop (weatherElement loc) (length (time first)) 0 [])
      as [fs|err]; cbn [bind] in Hb; [|discriminate].
    inversion Hb; subst w. split; reflexivity.
Qed.

Lemma city_and_updateTime_echo_witness :
  exists w,
    buildWeatherData sample_records sample_location = Ok w /\
    city w = taipei /\ updateTime w = str "36-hour forecast" /\
    status (response_of (upstream_resolving sample_records)
                        sample_env sample_request) = 200%N.
Proof.
  destruct (buildWeatherData sample_records sample_location) as [w|err] eqn:Hb;
    [|vm_compute in Hb; discriminate Hb].
  exists w. split; [reflexivity|].
  destruct (@city_and_updateTime_echo (upstream_resolving sample_records)
              sample_env sample_request sample_records sample_location []
              w eq_refl eq_refl Hb) as (Hresp & Hcity & Hupd).
  split; [exact Hcity|]. split; [exact Hupd|]. rewrite Hresp. reflexivity.
Defined.

(* ================================================================== *)
(** ** The outbound call *)
(* ================================================================== *)

(** C4.  Every run of the handler makes exactly one outbound call, and
    the [locationName] it sends is the requested city name with every
    code unit U+53F0 replaced by U+81FA and every other code unit kept in
    place: same length, position by position, no U+53F0 left; a name
    without U+53F0 is sent unchanged. *)
Theorem city_glyph_substitution
    (upstream : jsstring -> AxiosParams -> axios_outcome)
    (env : Env) (req : Request) :
  exists params rest,
    trace_of upstream env req = Requested outbound_url params :: rest /\
    (forall url' params', ~ In (Requested url' params') rest) /\
    length (params_locationName params) = length (params_city req) /\
    (forall i c, nth_error (params_city req) i = Some c ->
       nth_error (params_locationName params) i =
         Some (if N.eqb c tai_variant then tai_canonical else c)) /\
    ~ In tai_variant (params_locationName params) /\
    (~ In tai_variant (params_city req) ->
     params_locationName params = params_city req).
Proof.
  destruct (trace_of_eq upstream env req) as (rest & Htr & Hrest).
  exists (outbound_params env req), rest.
  split; [exact Htr|]. split; [exact Hrest|].
  unfold outbound_params. cbn [params_locationName].
  destruct (params_city req) as [|c0 s] eqn:Hcity.
  - cbn [truthy]. repeat split; auto.
    intros [|i] c H; discriminate H.
  - cbn [truthy]. rewrite <- Hcity. clear Hcity c0 s.
    split; [apply replace_tai_length|]. split; [|split].
    + intros i c Hc. rewrite replace_tai_nth, Hc. reflexivity.
    + apply replace_tai_clean.
    + apply replace_tai_id.
Qed.

Lemma city_glyph_substitution_witness :
  exists rest,
    trace_of (upstream_resolving sample_records) sample_env sample_request =
      Requested outbound_url
        {| params_Authorization := Some (str "CWA-TEST-KEY");
           params_locationName := taipei |} :: rest.
Proof.
  destruct (city_glyph_substitution (upstream_resolving sample_records)
              sample_env sample_request)
    as (params & rest & Htr & _).
  exists rest. rewrite Htr. vm_compute in Htr.
  inversion Htr. reflexivity.
Defined.

(* ================================================================== *)
(** ** The normalizer on a store *)
(* ================================================================== *)

Lemma nth_error_middle (pre post : store) (c : cell) :
  nth_error (pre ++ c :: post) (length pre) = Some c.
Proof.
  rewrite nth_error_app2 by apply le_n. rewrite Nat.sub_diag. reflexivity.
Qed.

Lemma update_middle (pre post : store) (c0 c : cell) :
  update (pre ++ c0 :: post) (length pre) c = pre ++ c :: post.
Proof.
  induction pre as [|a pre IH]; simpl; [reflexivity|].
  rewrite IH. reflexivity.
Qed.

Lemma mbind_returned {A B} (m : M A) (k : A -> M B) (h h' : store) (a : A) :
  m h = (Returned a, h') -> mbind m k h = k a h'.
Proof. intros H. unfold mbind. rewrite H. reflexivity. Qed.

Lemma read_forecasts_ok (h : store) (r arr : ref) (c u : jsstring) :
  nth_error h r = Some (CWeatherData c u arr) ->
  read_forecasts r h = (Returned arr, h).
Proof.
  intros H. unfold read_forecasts, mbind, read. rewrite H. reflexivity.
Qed.

Lemma read_array_ok (h : store) (r : ref) (items : list ref) :
  nth_error h r = Some (CArray items) ->
  read_array r h = (Returned items, h).
Proof.
  intros H. unfold read_array, mbind, read. rewrite H. reflexivity.
Qed.

Lemma read_records_ok (h : store) (input : ref) (records : Records) :
  nth_error h input = Some (CRecords records) ->
  read_records input h = (Returned records, h).
Proof.
  intros H. unfold read_records, mbind, read. rewrite H. reflexivity.
Qed.

Lemma locationDataM_ok (h : store) (input : ref) (records : Records)
    (loc : RawLocationForecast) (others : list RawLocationForecast) :
  nth_error h input = Some (CRecords records) ->
  location records = loc :: others ->
  locationDataM input h = (Returned loc, h).
Proof.
  intros H Hloc. unfold locationDataM, mbind.
  rewrite (@read_records_ok h input records H). unfold lift, index_then_read.
  rewrite Hloc. reflexivity.
Qed.

(** On the store, the callback does to the [forecast] object what the
    pure callback does to its record. *)
Lemma callbackM_spec (i : nat) (pre post : store) (f : ForecastPeriod)
    (e : WeatherElement) :
  callbackM i (length pre) e (pre ++ CForecast f :: post) =
  match callback i f e with
  | Ok f' => (Returned tt, pre ++ CForecast f' :: post)
  | Throw err => (Raised err, pre ++ CForecast f :: post)
  end.
Proof.
  unfold callbackM, callback, mbind, lift.
  destruct (index_then_read (time e) i "parameter") as [slot|err];
    cbn [bind]; [|reflexivity].
  unfold read_forecast, mbind, read. rewrite nth_error_middle.
  unfold mret, write.
  assert (Hlt : (length pre <? length (pre ++ CForecast f :: post)) = true).
  { apply Nat.ltb_lt. rewrite length_app. simpl. lia. }
  rewrite Hlt, update_middle. reflexivity.
Qed.

Lemma forEachM_spec (i : nat) (pre post : store)
    (elems : list WeatherElement) :
  forall f, exists f',
    forEachM i elems (length pre) (pre ++ CForecast f :: post) =
    (match forEach i elems f with
     | Ok _ => Returned tt
     | Throw err => Raised err
     end,
     pre ++ CForecast f' :: post) /\
    (forall g, forEach i elems f = Ok g -> f' = g).
Proof.
  induction elems as [|e rest IH]; intros f.
  - exists f. split; [reflexivity|]. simpl. intros g H; inversion H; auto.
  - cbn [forEachM forEach]. unfold mbind at 1. rewrite callbackM_spec.
    destruct (callback i f e) as [f1|err]; cbn [bind].
    + destruct (IH f1) as (f' & Hrun & Hres). exists f'. split; auto.
    + exists f. split; [reflexivity|]. intros g H; discriminate H.
Qed.

Lemma nth_error_app_left (h new : store) (l : ref) (c : cell) :
  nth_error h l = Some c -> nth_error (h ++ new) l = Some c.
Proof.
  intros H. rewrite nth_error_app1; [exact H|].
  apply nth_error_Some. congruence.
Qed.

Lemma nth_error_second (pre rest : store) (a b : cell) :
  nth_error (pre ++ a :: b :: rest) (S (length pre)) = Some b.
Proof.
  change (pre ++ a :: b :: rest) with (pre ++ [a] ++ b :: rest).
  rewrite app_assoc.
  replace (S (length pre)) with (length (pre ++ [a]))
    by (rewrite length_app; simpl; lia).
  apply nth_error_middle.
Qed.

(** [push] on a store whose [weatherData] sits right after its
    [forecasts] array. *)
Lemma pushM_spec (h0 rest : store) (items : list ref) (c u : jsstring)
    (forecast : ref) :
  pushM (S (length h0)) forecast
    (h0 ++ CArray items :: CWeatherData c u (length h0) :: rest) =
  (Returned tt,
   h0 ++ CArray (items ++ [forecast]) :: CWeatherData c u (length h0) :: rest).
Proof.
  unfold pushM.
  erewrite mbind_returned
    by (eapply read_forecasts_ok; apply nth_error_second).
  erewrite mbind_returned
    by (eapply read_array_ok; apply nth_error_middle).
  unfold write.
  assert (Hlt : (length h0 <?
                 length (h0 ++ CArray items
                            :: CWeatherData c u (length h0) :: rest)) = true).
  { apply Nat.ltb_lt. rewrite length_app. simpl. lia. }
  rewrite Hlt, update_middle. reflexivity.
Qed.

(** One iteration on the store: it ends as the pure iteration does, and
    when that returns a record, one [forecast] object holding it has been
    added at the end of the store and its reference pushed. *)
Lemma iterationM_spec (h0 : store) (input : ref) (records : Records)
    (loc : RawLocationForecast) (others : list RawLocationForecast)
    (c u : jsstring) (i : nat) (items : list ref) (objs : store) :
  nth_error h0 input = Some (CRecords records) ->
  location records = loc :: others ->
  exists items' tail,
    iterationM input (S (length h0)) i
      (h0 ++ CArray items :: CWeatherData c u (length h0) :: objs) =
    (match iteration (weatherElement loc) i with
     | Ok _ => Returned tt
     | Throw err => Raised err
     end,
     h0 ++ CArray items' :: CWeatherData c u (length h0) :: objs ++ tail) /\
    (forall p, iteration (weatherElement loc) i = Ok p ->
       items' = items ++ [length h0 + 2 + length objs] /\
       tail = [CForecast p]).
Proof.
  intros Hin Hloc.
  set (h := h0 ++ CArray items :: CWeatherData c u (length h0) :: objs).
  assert (Hin' : nth_error h input = Some (CRecords records))
    by (apply nth_error_app_left; exact Hin).
  assert (Hlen : length h = length h0 + 2 + length objs)
    by (unfold h; rewrite length_app; simpl; lia).
  unfold iterationM, iteration. unfold mbind at 1.
  rewrite (@locationDataM_ok h input records loc others Hin' Hloc).
  unfold mbind at 1, lift at 1.
  destruct (index_then_read (weatherElement loc) 0 "time") as [first|err];
    cbn [bind].
  2:{ exists items, []. rewrite app_nil_r. split; [reflexivity|].
      intros p H; discriminate H. }
  unfold mbind at 1, lift at 1.
  destruct (index_then_read (time first) i "startTime") as [slot|err];
    cbn [bind].
  2:{ exists items, []. rewrite app_nil_r. split; [reflexivity|].
      intros p H; discriminate H. }
  unfold mbind at 1, alloc at 1.
  match goal with
  | |- context [CForecast ?f0 ] =>
      destruct (forEachM_spec i h [] (weatherElement loc) f0)
        as (f' & Hrun & Hres)
  end.
  unfold mbind at 1. rewrite Hrun.
  match type of Hres with
  | forall g, ?R = Ok g -> _ => destruct R as [p|err] eqn:Hfe
  end.
  - rewrite (Hres p eq_refl).
    unfold h. rewrite <- app_assoc. cbn [app].
    rewrite pushM_spec. rewrite <- Hlen.
    exists (items ++ [length h]), [CForecast p].
    split; [reflexivity|]. intros q Hq. inversion Hq; subst q.
    rewrite Hlen. auto.
  - exists items, [CForecast f']. split.
    + unfold h. rewrite <- app_assoc. reflexivity.
    + intros q Hq; discriminate Hq.
Qed.

(** The loop on the store: it ends as the pure loop does, and when that
    returns, the records it pushed are the contents of the [forecast]
    objects added at the end of the store, in order, and their
    references are what was pushed onto the array. *)
Lemma for_loopM_spec (h0 : store) (input : ref) (records : Records)
    (loc : RawLocationForecast) (others : list RawLocationForecast)
    (c u : jsstring) (n : nat) :
  nth_error h0 input = Some (CRecords records) ->
  location records = loc :: others ->
  forall i items objs acc,
  exists items' tail,
    for_loopM input (S (length h0)) n i
      (h0 ++ CArray items :: CWeatherData c u (length h0) :: objs) =
    (match for_loop (weatherElement loc) n i acc with
     | Ok _ => Returned tt
     | Throw err => Raised err
     end,
     h0 ++ CArray items' :: CWeatherData c u (length h0) :: objs ++ tail) /\
    (forall out, for_loop (weatherElement loc) n i acc = Ok out ->
       exists ps,
         out = acc ++ ps /\
         items' = items ++ seq (length h0 + 2 + length objs) (length ps) /\
         tail = map CForecast ps).
Proof.
  intros Hin Hloc. induction n as [|n IH]; intros i items objs acc.
  - exists items, []. rewrite !app_nil_r. split; [reflexivity|].
    cbn [for_loop]. intros out H; inversion H; subst out.
    exists []. rewrite !app_nil_r. auto.
  - cbn [for_loopM for_loop].
    destruct (@iterationM_spec h0 input records loc others c u i items objs
                Hin Hloc) as (items1 & tail1 & Hrun & Hres).
    unfold mbind at 1. rewrite Hrun.
    destruct (iteration (weatherElement loc) i) as [p|err] eqn:Hit;
      cbn [bind].
    + destruct (Hres p eq_refl) as [-> ->].
      destruct (IH (S i) (items ++ [length h0 + 2 + length objs])
                   (objs ++ [CForecast p]) (acc ++ [p]))
        as (items2 & tail2 & Hrun2 & Hres2).
      rewrite Hrun2. exists items2, (CForecast p :: tail2). split.
      * rewrite <- app_assoc. reflexivity.
      * intros out Hout. destruct (Hres2 out Hout) as (ps & -> & -> & ->).
        exists (p :: ps). rewrite <- !app_assoc. cbn [app length seq map].
        rewrite length_app. cbn [length].
        replace (length h0 + 2 + (length objs + 1))
          with (S (length h0 + 2 + length objs)) by lia.
        auto.
    + exists items1, tail1. split; [reflexivity|].
      intros out H; discriminate H.
Qed.

Lemma reify_items_seq (ps : list ForecastPeriod) :
  forall pre : store,
    reify_items (pre ++ map CForecast ps) (seq (length pre) (length ps)) =
    Some ps.
Proof.
  induction ps as [|p ps IH]; intros pre; [reflexivity|].
  cbn [map length seq reify_items]. rewrite nth_error_middle.
  change (pre ++ CForecast p :: map CForecast ps)
    with (pre ++ [CForecast p] ++ map CForecast ps).
  rewrite app_assoc.
  replace (S (length pre)) with (length (pre ++ [CForecast p]))
    by (rewrite length_app; simpl; lia).
  rewrite IH. reflexivity.
Qed.

Lemma reify_items_frame (h new : store) (items : list ref) :
  forall fs, reify_items h items = Some fs ->
             reify_items (h ++ new) items = Some fs.
Proof.
  induction items as [|r rest IH]; intros fs; cbn [reify_items]; [auto|].
  destruct (nth_error h r) as [[| | |f]|] eqn:Hr; try discriminate.
  destruct (reify_items h rest) as [fs'|]; [|discriminate].
  intros H. rewrite (@nth_error_app_left h new r (CForecast f) Hr).
  rewrite (IH fs' eq_refl). exact H.
Qed.

(** What is read back from a [weatherData] stays the same when the store
    grows. *)
Lemma reify_frame (h new : store) (r : ref) (w : NormalizedForecast) :
  reify h r = Some w -> reify (h ++ new) r = Some w.
Proof.
  unfold reify.
  destruct (nth_error h r) as [[|c u arr| |]|] eqn:Hr; try discriminate.
  destruct (nth_error h arr) as [[| |items|]|] eqn:Harr; try discriminate.
  destruct (reify_items h items) as [fs|] eqn:Hfs; [|discriminate].
  intros H.
  rewrite (@nth_error_app_left h new r _ Hr).
  rewrite (@nth_error_app_left h new arr _ Harr).
  rewrite (@reify_items_frame h new items fs Hfs). exact H.
Qed.

(** The normalizer on the store against the pure one: from any store
    holding the upstream answer, it only adds objects at the end of the
    store, ends as [buildWeatherData] does, and when that returns a
    forecast, the new [weatherData] reads back as that forecast. *)
Lemma buildWeatherDataM_spec (h0 : store) (input : ref) (records : Records)
    (loc : RawLocationForecast) (others : list RawLocationForecast) :
  nth_error h0 input = Some (CRecords records) ->
  location records = loc :: others ->
  exists new,
    buildWeatherDataM input h0 =
    (match buildWeatherData records loc with
     | Ok _ => Returned (S (length h0))
     | Throw err => Raised err
     end,
     h0 ++ new) /\
    (forall w, buildWeatherData records loc = Ok w ->
               reify (h0 ++ new) (S (length h0)) = Some w).
Proof.
  intros Hin Hloc.
  unfold buildWeatherDataM, buildWeatherData.
  unfold mbind at 1.
  rewrite (@locationDataM_ok h0 input records loc others Hin Hloc).
  unfold mbind at 1. rewrite (@read_records_ok h0 input records Hin).
  unfold mbind at 1, alloc at 1. unfold mbind at 1, alloc at 1.
  rewrite <- app_assoc. cbn [app].
  replace (length (h0 ++ [CArray []])) with (S (length h0))
    by (rewrite length_app; simpl; lia).
  set (c := locationName loc). set (u := datasetDescription records).
  assert (Hin' : nth_error (h0 ++ [CArray []; CWeatherData c u (length h0)])
                           input = Some (CRecords records))
    by (apply nth_error_app_left; exact Hin).
  unfold mbind at 1.
  rewrite (@locationDataM_ok _ input records loc others Hin' Hloc).
  unfold mbind at 1, lift at 1.
  destruct (index_then_read (weatherElement loc) 0 "time") as [first|err];
    cbn [bind].
  2:{ eexists. split; [reflexivity|]. intros w H; discriminate H. }
  destruct (@for_loopM_spec h0 input records loc others c u
              (length (time first)) Hin Hloc 0 [] [] [])
    as (items' & tail & Hrun & Hres).
  unfold mbind at 1. rewrite Hrun.
  destruct (for_loop (weatherElement loc) (length (time first)) 0 [])
    as [fs|err] eqn:Hfl; cbn [bind].
  2:{ eexists. split; [reflexivity|]. intros w H; discriminate H. }
  destruct (Hres fs eq_refl) as (ps & Hps & -> & ->).
  cbn [app] in Hps. subst ps. cbn [app length]. rewrite Nat.add_0_r.
  eexists. split; [reflexivity|].
  intros w Hw. inversion Hw; subst w. unfold reify.
  rewrite nth_error_second, nth_error_middle.
  change (h0 ++ CArray (seq (length h0 + 2) (length fs))
             :: CWeatherData c u (length h0) :: map CForecast fs)
    with (h0 ++ [CArray (seq (length h0 + 2) (length fs));
                 CWeatherData c u (length h0)] ++ map CForecast fs).
  rewrite app_assoc.
  replace (length h0 + 2)
    with (length (h0 ++ [CArray (seq (length h0 + 2) (length fs));
                         CWeatherData c u (length h0)]))
    at 2 by (rewrite length_app; simpl; lia).
  rewrite reify_items_seq. reflexivity.
Qed.

(** A run of the store model on the sample payload: the new
    [weatherData] is the third object of the store and reads back as the
    forecast of [scenario_sunny]. *)
Example scenario_sunny_on_store :
  fst (buildWeatherDataM 0 [CRecords sample_records]) = Returned 2 /\
  reify (snd (buildWeatherDataM 0 [CRecords sample_records])) 2 =
    match buildWeatherData sample_records sample_location with
    | Ok w => Some w
    | Throw _ => None
    end.
Proof. split; vm_compute; reflexivity. Qed.

(** C9.  Running the normalizer twice, one run after the other on the
    same store, on the same upstream answer: both runs leave every object
    that was in the store before them as it was, the upstream answer
    among them; when the answer normalizes to a forecast [w], the two
    runs return two distinct [weatherData] objects, each of which reads
    back as [w], the first one also after the second run; when it does
    not, both runs throw the same exception. *)
Theorem normalizer_idempotent (h : store) (input : ref) (records : Records)
    (loc : RawLocationForecast) (others : list RawLocationForecast) :
  nth_error h input = Some (CRecords records) ->
  location records = loc :: others ->
  exists o1 h1 o2 h2,
    buildWeatherDataM input h = (o1, h1) /\
    buildWeatherDataM input h1 = (o2, h2) /\
    (forall l c, nth_error h l = Some c -> nth_error h2 l = Some c) /\
    match buildWeatherData records loc with
    | Ok w =>
        exists r1 r2,
          o1 = Returned r1 /\ o2 = Returned r2 /\ r1 <> r2 /\
          reify h1 r1 = Some w /\
          reify h2 r1 = Some w /\ reify h2 r2 = Some w
    | Throw err => o1 = Raised err /\ o2 = Raised err
    end.
Proof.
  intros Hin Hloc.
  destruct (@buildWeatherDataM_spec h input records loc others Hin Hloc)
    as (new1 & Hrun1 & Hread1).
  assert (Hin1 : nth_error (h ++ new1) input = Some (CRecords records))
    by (apply nth_error_app_left; exact Hin).
  destruct (@buildWeatherDataM_spec (h ++ new1) input records loc others
              Hin1 Hloc) as (new2 & Hrun2 & Hread2).
  do 4 eexists. split; [exact Hrun1|]. split; [exact Hrun2|]. split.
  - intros l c Hl. apply nth_error_app_left, nth_error_app_left. exact Hl.
  - destruct (buildWeatherData records loc) as [w|err].
    + specialize (Hread1 w eq_refl). specialize (Hread2 w eq_refl).
      exists (S (length h)), (S (length (h ++ new1))).
      split; [reflexivity|]. split; [reflexivity|]. split.
      * assert (Hlt : S (length h) < length (h ++ new1)).
        { apply nth_error_Some. unfold reify in Hread1.
          destruct (nth_error (h ++ new1) (S (length h))); congruence. }
        lia.
      * split; [exact Hread1|]. split; [|exact Hread2].
        apply reify_frame. exact Hread1.
    + split; reflexivity.
Qed.

Lemma normalizer_idempotent_witness :
  exists r1 r2 h1 h2 w,
    buildWeatherDataM 0 [CRecords sample_records] = (Returned r1, h1) /\
    buildWeatherDataM 0 h1 = (Returned r2, h2) /\
    r1 <> r2 /\
    reify h2 r1 = Some w /\ reify h2 r2 = Some w /\
    length (forecasts w) = 2.
Proof.
  destruct (@normalizer_idempotent [CRecords sample_records] 0 sample_records
              sample_location [] eq_refl eq_refl)
    as (o1 & h1 & o2 & h2 & Hrun1 & Hrun2 & _ & Hres).
  destruct (buildWeatherData sample_records sample_location) as [w|err] eqn:Hb;
    [|vm_compute in Hb; discriminate Hb].
  destruct Hres as (r1 & r2 & -> & -> & Hne & _ & Hr1 & Hr2).
  exists r1, r2, h1, h2, w.
  repeat split; try assumption.
  vm_compute in Hb. inversion Hb. reflexivity.
Defined.

(* ================================================================== *)
(** ** Failure modes of the normalizer *)
(* ================================================================== *)

(** A normalizer that returns has met no element shorter than the
    first. *)
Lemma buildWeatherData_Ok_inv (records : Records) (loc : RawLocationForecast)
    (e0 : WeatherElement) (rest : list WeatherElement)
    (w : NormalizedForecast) :
  weatherElement loc = e0 :: rest ->
  buildWeatherData records loc = Ok w ->
  Forall (fun e => length (time e0) <= length (time e)) rest.
Proof.
  intros Hw Hb.
  destruct (Forall_Exists_dec
              (fun e => length (time e0) <= length (time e))
              (fun e => le_dec (length (time e0)) (length (time e))) rest)
    as [HF|HE]; [exact HF|].
  assert (HE' : Exists (fun e => length (time e) < length (time e0)) rest).
  { eapply Exists_impl; [|exact HE]. simpl. intros; lia. }
  rewrite (buildWeatherData_throw records loc Hw HE') in Hb. discriminate Hb.
Qed.

(** Whatever the normalizer throws is a [TypeError] on [time] or on
    [parameter]. *)
Lemma buildWeatherData_throws (records : Records)
    (loc : RawLocationForecast) (err : js_error) :
  buildWeatherData records loc = Throw err ->
  err = TypeError (str "time") \/ err = TypeError (str "parameter").
Proof.
  intros Hb.
  destruct (weatherElement loc) as [|e0 rest] eqn:Hw.
  - rewrite (buildWeatherData_empty records loc Hw) in Hb.
    inversion Hb; auto.
  - destruct (Forall_Exists_dec
                (fun e => length (time e0) <= length (time e))
                (fun e => le_dec (length (time e0)) (length (time e))) rest)
      as [HF|HE].
    + destruct (buildWeatherData_ok records loc Hw HF) as (fs & Hfs & _).
      rewrite Hfs in Hb. discriminate Hb.
    + assert (HE' : Exists (fun e => length (time e) < length (time e0)) rest).
      { eapply Exists_impl; [|exact HE]. simpl. intros; lia. }
      rewrite (buildWeatherData_throw records loc Hw HE') in Hb.
      inversion Hb; auto.
Qed.

(* ================================================================== *)
(** ** The handler, case by case *)
(* ================================================================== *)

Lemma sent_name (env : Env) (req : Request) :
  params_locationName (outbound_params env req) =
  replace_tai (params_city req).
Proof.
  unfold outbound_params. cbn [params_locationName].
  destruct (params_city req); reflexivity.
Qed.

Lemma outbound_params_eq (env : Env) (req : Request) :
  outbound_params env req =
  {| params_Authorization := CWA_API_KEY env;
     params_locationName := replace_tai (params_city req) |}.
Proof.
  unfold outbound_params. destruct (params_city req); reflexivity.
Qed.

Lemma trace_of_cases (upstream : jsstring -> AxiosParams -> axios_outcome)
    (env : Env) (req : Request) :
  trace_of upstream env req =
  Requested outbound_url (outbound_params env req) ::
  match try_block req (upstream outbound_url (outbound_params env req)) with
  | Ok _ => []
  | Throw error =>
      [ Logged [ str "Get Weather Error (" ++ replace_tai (params_city req)
                 ++ str "):";
                 error_message error ] ]
  end.
Proof.
  rewrite <- sent_name with (env := env).
  unfold trace_of, getWeatherByCity. cbn [run].
  fold outbound_url. fold (outbound_params env req).
  destruct (try_block req (upstream outbound_url (outbound_params env req)));
    reflexivity.
Qed.

(** X4.  A transport failure (the call rejects and the error carries no
    [response]) is answered 500 with the error's message under [error],
    and leaves one log line made of the substituted city name and that
    message. *)
Theorem transport_failure_is_500
    (upstream : jsstring -> AxiosParams -> axios_outcome)
    (env : Env) (req : Request) (message : jsstring) :
  upstream outbound_url (outbound_params env req) = Rejected message None ->
  response_of upstream env req =
    {| status := 500;
       body := JObject [ (str "error", JString message) ] |} /\
  trace_of upstream env req =
    [ Requested outbound_url (outbound_params env req);
      Logged [ str "Get Weather Error (" ++ replace_tai (params_city req)
               ++ str "):";
               message ] ].
Proof.
  intros Hup. rewrite response_of_eq, trace_of_cases, Hup. split; reflexivity.
Qed.

Lemma transport_failure_is_500_witness :
  status (response_of (upstream_rejecting "connect ECONNREFUSED" None)
                      sample_env sample_request) = 500%N /\
  trace_of (upstream_rejecting "connect ECONNREFUSED" None)
           sample_env sample_request =
    [ Requested outbound_url (outbound_params sample_env sample_request);
      Logged [ str "Get Weather Error (" ++ taipei ++ str "):";
               str "connect ECONNREFUSED" ] ].
Proof.
  destruct (@transport_failure_is_500
              (upstream_rejecting "connect ECONNREFUSED" None)
              sample_env sample_request (str "connect ECONNREFUSED") eq_refl)
    as [Hresp Htr].
  split; [rewrite Hresp; reflexivity|exact Htr].
Defined.

Lemma json_of_forecast_inj (f g : ForecastPeriod) :
  json_of_forecast f = json_of_forecast g -> f = g.
Proof.
  unfold json_of_forecast. intros H. destruct f, g. simpl in H.
  inversion H. reflexivity.
Qed.

Lemma json_of_weatherData_inj (w w' : NormalizedForecast) :
  json_of_weatherData w = json_of_weatherData w' -> w = w'.
Proof.
  unfold json_of_weatherData. intros H. destruct w as [c u fs], w' as [c' u' fs'].
  simpl in H. inversion H as [[Hc Hu Hfs]]. f_equal.
  clear H Hc Hu. revert fs' Hfs.
  induction fs as [|f fs IH]; intros [|f' fs'] Hfs; cbn [map] in Hfs;
    try discriminate Hfs; [reflexivity|].
  assert (Hf : json_of_forecast f = json_of_forecast f') by congruence.
  assert (Hrest : map json_of_forecast fs = map json_of_forecast fs')
    by congruence.
  apply json_of_forecast_inj in Hf. subst f'. f_equal. apply IH. exact Hrest.
Qed.

(** X2.  A response [{success: true, data}] with status 200 always
    carries the output of the normalizer for the first location of a
    resolved upstream answer, whole and nothing else; and it is never
    logged. *)
Theorem success_carries_normalizer_output
    (upstream : jsstring -> AxiosParams -> axios_outcome)
    (env : Env) (req : Request) (w : NormalizedForecast) :
  response_of upstream env req =
    {| status := 200;
       body := JObject
         [ (str "success", JBool true);
           (str "data", json_of_weatherData w) ] |} ->
  (exists records loc others,
     upstream outbound_url (outbound_params env req) = Resolved records /\
     location records = loc :: others /\
     buildWeatherData records loc = Ok w) /\
  trace_of upstream env req =
    [ Requested outbound_url (outbound_params env req) ].
Proof.
  rewrite response_of_eq, trace_of_cases.
  destruct (upstream outbound_url (outbound_params env req))
    as [records|message response] eqn:Hup.
  - unfold try_block.
    destruct (location records) as [|loc others] eqn:Hloc; cbn [nth_error].
    + intros H. discriminate H.
    + destruct (buildWeatherData records loc) as [w'|err] eqn:Hb; cbn [bind].
      * intros H.
        assert (Hdata : json_of_weatherData w' = json_of_weatherData w)
          by congruence.
        apply json_of_weatherData_inj in Hdata. subst w'.
        split; [|reflexivity]. exists records, loc, others. auto.
      * intros H. unfold catch_block in H.
        destruct (error_response err); discriminate H.
  - cbn [try_block]. intros H. unfold catch_block in H.
    cbn [error_response] in H. destruct response; discriminate H.
Qed.

Lemma success_carries_normalizer_output_witness :
  exists w,
    buildWeatherData sample_records sample_location = Ok w /\
    trace_of (upstream_resolving sample_records) sample_env sample_request =
      [ Requested outbound_url (outbound_params sample_env sample_request) ].
Proof.
  destruct (buildWeatherData sample_records sample_location) as [w|err] eqn:Hb;
    [|vm_compute in Hb; discriminate Hb].
  exists w. split; [reflexivity|].
  apply (@success_carries_normalizer_output
           (upstream_resolving sample_records) sample_env sample_request w).
  rewrite response_of_eq. unfold upstream_resolving, try_block.
  cbn [sample_records records_with location nth_error]. rewrite Hb.
  reflexivity.
Defined.

(** X5.  The handler invents no status of its own beyond 200, 404 and 500:
    any other status it sends is the one of an upstream error response. *)
Theorem status_range
    (upstream : jsstring -> AxiosParams -> axios_outcome)
    (env : Env) (req : Request) :
  status (response_of upstream env req) = 200%N \/
  status (response_of upstream env req) = 404%N \/
  status (response_of upstream env req) = 500%N \/
  exists message response,
    upstream outbound_url (outbound_params env req) =
      Rejected message (Some response) /\
    status (response_of upstream env req) = err_status response.
Proof.
  rewrite response_of_eq.
  destruct (upstream outbound_url (outbound_params env req))
    as [records|message response] eqn:Hup.
  - unfold try_block.
    destruct (nth_error (location records) 0) as [loc|]; [|auto].
    destruct (buildWeatherData records loc) as [w|err] eqn:Hb; cbn [bind];
      [auto|].
    destruct (buildWeatherData_throws records loc Hb) as [-> | ->];
      auto.
  - cbn [try_block]. destruct response as [r|].
    + right. right. right. exists message, r. split; reflexivity.
    + auto.
Qed.

(* ================================================================== *)
(** ** Spellings of a city name *)
(* ================================================================== *)

Lemma replace_tai_idempotent (s : jsstring) :
  replace_tai (replace_tai s) = replace_tai s.
Proof. apply replace_tai_id, replace_tai_clean. Qed.

(** X8.  Two requests whose city names differ only in the spelling of the
    glyph (they agree after the substitution) make the same outbound call
    and leave the same events, log line included; their responses are the
    same too, unless both are the unknown-city 404, each then naming its
    own request's spelling.  The name sent upstream is itself such a
    spelling: requested in its turn, it is sent again unchanged. *)
Theorem spellings_are_equivalent
    (upstream : jsstring -> AxiosParams -> axios_outcome)
    (env : Env) (req1 req2 : Request) :
  replace_tai (params_city req1) = replace_tai (params_city req2) ->
  outbound_params env req1 = outbound_params env req2 /\
  trace_of upstream env req1 = trace_of upstream env req2 /\
  (response_of upstream env req1 = response_of upstream env req2 \/
   (response_of upstream env req1 =
      {| status := 404;
         body := JObject
           [ (str "success", JBool false);
             (str "message",
              JString (not_found_prefix ++ params_city req1
                       ++ not_found_suffix)) ] |} /\
    response_of upstream env req2 =
      {| status := 404;
         body := JObject
           [ (str "success", JBool false);
             (str "message",
              JString (not_found_prefix ++ params_city req2
                       ++ not_found_suffix)) ] |})) /\
  outbound_params env
    {| params_city := params_locationName (outbound_params env req1) |} =
  outbound_params env req1.
Proof.
  intros Heq.
  assert (Hparams : outbound_params env req1 = outbound_params env req2).
  { rewrite !outbound_params_eq, Heq. reflexivity. }
  split; [exact Hparams|].
  rewrite !response_of_eq, !trace_of_cases, <- Hparams, <- Heq.
  split; [|split].
  - destruct (upstream outbound_url (outbound_params env req1))
      as [records|message response]; [|reflexivity].
    unfold try_block.
    destruct (nth_error (location records) 0) as [loc|]; reflexivity.
  - destruct (upstream outbound_url (outbound_params env req1))
      as [records|message response]; [|left; reflexivity].
    unfold try_block.
    destruct (nth_error (location records) 0) as [loc|].
    + left. reflexivity.
    + right. split; reflexivity.
  - rewrite !outbound_params_eq. cbn [params_city params_locationName].
    rewrite replace_tai_idempotent. reflexivity.
Qed.

Lemma spellings_are_equivalent_witness :
  params_city sample_request <> taipei /\
  trace_of (upstream_resolving sample_records) sample_env sample_request =
  trace_of (upstream_resolving sample_records) sample_env
           {| params_city := taipei |} /\
  response_of (upstream_resolving sample_records) sample_env sample_request =
  response_of (upstream_resolving sample_records) sample_env
              {| params_city := taipei |}.
Proof.
  split; [discriminate|].
  destruct (@spellings_are_equivalent (upstream_resolving sample_records)
              sample_env sample_request {| params_city := taipei |} eq_refl)
    as (_ & Htr & [Hresp|[Hnf _]] & _).
  - split; [exact Htr|exact Hresp].
  - exfalso. vm_compute in Hnf. discriminate Hnf.
Defined.

(* ================================================================== *)
(** ** What of the upstream answer the handler uses *)
(* ================================================================== *)

(** X9.  Of the [location] array only the first entry is used: two upstream
    answers with the same [datasetDescription] and the same first
    location give the same run, whatever follows in the array. *)
Theorem only_first_location_is_used
    (upstream1 upstream2 : jsstring -> AxiosParams -> axios_outcome)
    (env : Env) (req : Request) (description : jsstring)
    (loc : RawLocationForecast) (others1 others2 : list RawLocationForecast) :
  upstream1 outbound_url (outbound_params env req) =
    Resolved {| datasetDescription := description;
                location := loc :: others1 |} ->
  upstream2 outbound_url (outbound_params env req) =
    Resolved {| datasetDescription := description;
                location := loc :: others2 |} ->
  run upstream1 (getWeatherByCity env req) =
  run upstream2 (getWeatherByCity env req).
Proof.
  intros H1 H2.
  rewrite (surjective_pairing (run upstream1 (getWeatherByCity env req))).
  rewrite (surjective_pairing (run upstream2 (getWeatherByCity env req))).
  fold (trace_of upstream1 env req). fold (trace_of upstream2 env req).
  fold (response_of upstream1 env req). fold (response_of upstream2 env req).
  rewrite !response_of_eq, !trace_of_cases, H1, H2. reflexivity.
Qed.

Lemma only_first_location_is_used_witness :
  run (upstream_resolving (records_with [sample_location]))
      (getWeatherByCity sample_env sample_request) =
  run (upstream_resolving
         (records_with [sample_location; location_with []]))
      (getWeatherByCity sample_env sample_request).
Proof.
  apply (@only_first_location_is_used
           (upstream_resolving (records_with [sample_location]))
           (upstream_resolving
              (records_with [sample_location; location_with []]))
           sample_env sample_request (str "36-hour forecast")
           sample_location [] [location_with []]); reflexivity.
Defined.

(** X10.  A response equal to the one of the application's last-resort 404
    middleware, or to one of its global error middleware, can leave the
    weather handler only as the echo of an upstream error response: its
    own 404 (unknown city) and its own 500 have other bodies. *)
Theorem middleware_responses_are_distinct
    (upstream : jsstring -> AxiosParams -> axios_outcome)
    (env : Env) (req : Request) (stack message : jsstring) :
  response_of upstream env req = snd (run upstream notFoundHandler) \/
  response_of upstream env req =
    snd (run upstream (errorHandler stack message)) ->
  exists m response,
    upstream outbound_url (outbound_params env req) =
      Rejected m (Some response).
Proof.
  rewrite response_of_eq. cbn [run notFoundHandler errorHandler snd].
  destruct (upstream outbound_url (outbound_params env req))
    as [records|m response] eqn:Hup.
  - unfold try_block.
    destruct (nth_error (location records) 0) as [loc|].
    + destruct (buildWeatherData records loc) as [w|err] eqn:Hb; cbn [bind].
      * intros [H|H]; discriminate H.
      * destruct (buildWeatherData_throws records loc Hb) as [-> | ->];
          intros [H|H]; discriminate H.
    + intros [H|H]; discriminate H.
  - destruct response as [r|].
    + intros _. exists m, r. reflexivity.
    + cbn [try_block]. intros [H|H]; discriminate H.
Qed.

Lemma middleware_responses_are_distinct_witness :
  exists m response,
    upstream_rejecting "Request failed with status code 404"
      (Some {| err_status := 404;
               err_data := JString route_not_found_text |})
      outbound_url (outbound_params sample_env sample_request) =
    Rejected m (Some response).
Proof.
  apply (@middleware_responses_are_distinct
           (upstream_rejecting "Request failed with status code 404"
              (Some {| err_status := 404;
                       err_data := JString route_not_found_text |}))
           sample_env sample_request [] []).
  left. reflexivity.
Defined.

(* ================================================================== *)
(** ** What the loop reads of the elements after the first *)
(* ================================================================== *)

Lemma callback_read_by (n i : nat) (f : ForecastPeriod)
    (e e' : WeatherElement) :
  i < n -> read_by n e = read_by n e' ->
  callback i f e = callback i f e'.
Proof.
  intros Hi Hread. unfold read_by in Hread.
  inversion Hread as [[Hname Hvalues]].
  assert (Hnth : option_map (fun s => parameterName (parameter s))
                            (nth_error (time e) i) =
                 option_map (fun s => parameterName (parameter s))
                            (nth_error (time e') i)).
  { apply (f_equal (fun l => nth_error l i)) in Hvalues.
    rewrite !nth_error_map, !nth_error_firstn in Hvalues.
    apply Nat.ltb_lt in Hi. rewrite Hi in Hvalues. exact Hvalues. }
  unfold callback, index_then_read. rewrite Hname.
  destruct (nth_error (time e) i) as [s|], (nth_error (time e') i) as [s'|];
    simpl in Hnth; try discriminate Hnth; [|reflexivity].
  inversion Hnth as [Hv]. cbn [bind].
  destruct (parameter s) as [v], (parameter s') as [v'].
  simpl in Hv. rewrite Hv. reflexivity.
Qed.

Lemma forEach_read_by (n i : nat) (l : list WeatherElement) :
  i < n ->
  forall l' f,
    map (read_by n) l = map (read_by n) l' ->
    forEach i l f = forEach i l' f.
Proof.
  intros Hi. induction l as [|e l IH]; intros [|e' l'] f Hmap;
    try discriminate Hmap; [reflexivity|].
  cbn [map] in Hmap. injection Hmap as Hname Hvalues Htail.
  assert (Hhead : read_by n e = read_by n e')
    by (unfold read_by; rewrite Hname, Hvalues; reflexivity).
  cbn [forEach]. rewrite (@callback_read_by n i f e e' Hi Hhead).
  destruct (callback i f e') as [f'|err]; cbn [bind]; [|reflexivity].
  apply IH. exact Htail.
Qed.

Lemma for_loop_read_by (e0 : WeatherElement) (rest rest' : list WeatherElement)
    (n : nat) :
  map (read_by (length (time e0))) rest =
  map (read_by (length (time e0))) rest' ->
  forall i acc,
    i + n <= length (time e0) ->
    for_loop (e0 :: rest) n i acc = for_loop (e0 :: rest') n i acc.
Proof.
  intros Hmap. induction n as [|n IH]; intros i acc Hi; [reflexivity|].
  cbn [for_loop].
  assert (Hit : iteration (e0 :: rest) i = iteration (e0 :: rest') i).
  { unfold iteration, index_then_read. cbn [nth_error bind].
    destruct (nth_error (time e0) i) as [slot0|]; cbn [bind]; [|reflexivity].
    cbn [forEach].
    match goal with
    | |- context [callback i ?f0 e0] => destruct (callback i f0 e0) as [f1|err]
    end; cbn [bind]; [|reflexivity].
    apply (@forEach_read_by (length (time e0))); [lia|exact Hmap]. }
  rewrite Hit.
  destruct (iteration (e0 :: rest') i) as [p|err]; cbn [bind]; [|reflexivity].
  apply IH. lia.
Qed.

(** X11.  Of the elements after the first, the normalizer reads the name and
    the values of the first [N] slots, nothing else: two inputs whose
    later elements agree on these give the same result, forecast or
    exception, whatever the [startTime] and [endTime] of those slots and
    whatever slots follow them. *)
Theorem later_elements_read_by_position (records : Records)
    (name : jsstring) (e0 : WeatherElement)
    (rest rest' : list WeatherElement) :
  map (read_by (length (time e0))) rest =
  map (read_by (length (time e0))) rest' ->
  buildWeatherData records
    {| locationName := name; weatherElement := e0 :: rest |} =
  buildWeatherData records
    {| locationName := name; weatherElement := e0 :: rest' |}.
Proof.
  intros Hmap. unfold buildWeatherData, index_then_read.
  cbn [weatherElement locationName nth_error bind].
  rewrite (@for_loop_read_by e0 rest rest' (length (time e0)) Hmap 0 []);
    [reflexivity|simpl; apply le_n].
Qed.

Lemma later_elements_read_by_position_witness :
  map ts_startTime (time redated_PoP) <> map ts_startTime (time sample_PoP) /\
  buildWeatherData sample_records
    {| locationName := taipei; weatherElement := [sample_Wx; sample_PoP] |} =
  buildWeatherData sample_records
    {| locationName := taipei; weatherElement := [sample_Wx; redated_PoP] |}.
Proof.
  split; [discriminate|].
  apply (@later_elements_read_by_position sample_records taipei sample_Wx
           [sample_PoP] [redated_PoP]).
  reflexivity.
Defined.

(* ================================================================== *)
(** ** Reading a record back *)
(* ================================================================== *)

(** The records of a forecast that was returned, each with its index and
    what the loop guarantees of it. *)
Lemma forecasts_spec (records : Records) (loc : RawLocationForecast)
    (e0 : WeatherElement) (rest : list WeatherElement)
    (w : NormalizedForecast) (p : ForecastPeriod) :
  weatherElement loc = e0 :: rest ->
  buildWeatherData records loc = Ok w ->
  In p (forecasts w) ->
  exists i, nth_error (forecasts w) i = Some p /\
            period_spec (e0 :: rest) i p.
Proof.
  intros Hw Hb Hin.
  pose proof (buildWeatherData_Ok_inv records loc Hw Hb) as HF.
  destruct (buildWeatherData_ok records loc Hw HF) as (fs & Hfs & Hlen & Hnth).
  rewrite Hfs in Hb. inversion Hb; subst w. cbn [forecasts] in *.
  destruct (In_nth_error _ _ Hin) as [i Hi].
  exists i. split; [exact Hi|].
  assert (Hlt : i < length (time e0)).
  { rewrite <- Hlen. apply nth_error_Some. congruence. }
  destruct (Hnth i Hlt) as (q & Hq & Hspec). congruence.
Qed.

(** X12.  In a returned forecast, [rain], [minTemp] and [maxTemp] (the fields
    with a suffix) tell presence from absence: such a field is the empty
    string exactly when no element of the input bears its name, and ends
    with its suffix otherwise.  ([weather], [comfort] and [windSpeed] can
    be empty with the element present.) *)
Theorem suffixed_field_empty_iff_absent (records : Records)
    (loc : RawLocationForecast) (e0 : WeatherElement)
    (rest : list WeatherElement) (w : NormalizedForecast)
    (p : ForecastPeriod) (k : element_kind) :
  weatherElement loc = e0 :: rest ->
  buildWeatherData records loc = Ok w ->
  In p (forecasts w) ->
  suffix_of k <> [] ->
  (field_of k p = [] <-> present (kind_name k) (e0 :: rest) = false) /\
  (present (kind_name k) (e0 :: rest) = true ->
   exists v, field_of k p = v ++ suffix_of k).
Proof.
  intros Hw Hb Hin Hsuffix.
  destruct (forecasts_spec records loc p Hw Hb Hin) as (i & _ & _ & Hfields).
  specialize (Hfields k).
  destruct (last_named (kind_name k) (e0 :: rest)) as [e|] eqn:Hlast.
  - assert (Hpres : present (kind_name k) (e0 :: rest) = true)
      by (apply last_named_present; eauto).
    destruct Hfields as (slot & _ & Hval).
    rewrite Hpres. split; [split|].
    + intros Hempty. rewrite Hval in Hempty.
      apply app_eq_nil in Hempty. destruct Hempty as [_ Hs]. tauto.
    + discriminate.
    + intros _. eauto.
  - apply last_named_absent in Hlast. rewrite Hlast. split; [split|].
    + reflexivity.
    + intros _. exact Hfields.
    + discriminate.
Qed.

Lemma suffixed_field_empty_iff_absent_witness :
  exists w p,
    buildWeatherData sample_records sample_location = Ok w /\
    nth_error (forecasts w) 0 = Some p /\
    minTemp p = [] /\ exists v, rain p = v ++ str "%".
Proof.
  destruct (buildWeatherData sample_records sample_location) as [w|err] eqn:Hb;
    [|vm_compute in Hb; discriminate Hb].
  destruct (nth_error (forecasts w) 0) as [p|] eqn:Hp;
    [|vm_compute in Hb; inversion Hb; subst w; discriminate Hp].
  exists w, p. split; [reflexivity|]. split; [exact Hp|].
  pose proof (nth_error_In _ _ Hp) as Hin.
  split.
  - destruct (@suffixed_field_empty_iff_absent sample_records sample_location
                sample_Wx [sample_PoP; sample_UVI] w p MinT eq_refl Hb Hin)
      as [[_ Habs] _]; [discriminate|].
    apply Habs. reflexivity.
  - destruct (@suffixed_field_empty_iff_absent sample_records sample_location
                sample_Wx [sample_PoP; sample_UVI] w p PoP eq_refl Hb Hin)
      as [_ Hpres]; [discriminate|].
    apply Hpres. reflexivity.
Defined.

(* ================================================================== *)
(** ** Order of the elements after the first *)
(* ================================================================== *)

Lemma ForecastPeriod_ext (p q : ForecastPeriod) :
  startTime p = startTime q -> endTime p = endTime q ->
  (forall k, field_of k p = field_of k q) -> p = q.
Proof.
  intros Hs He Hk.
  pose proof (Hk Wx). pose proof (Hk PoP). pose proof (Hk MinT).
  pose proof (Hk MaxT). pose proof (Hk CI). pose proof (Hk WS).
  destruct p, q. simpl in *. congruence.
Qed.

Lemma last_named_unique (l : list WeatherElement) (e : WeatherElement) :
  NoDup (map elementName l) -> In e l ->
  last_named (elementName e) l = Some e.
Proof.
  induction l as [|a l IH]; intros Hnd Hin; [destruct Hin|].
  cbn [map] in Hnd. apply NoDup_cons_iff in Hnd. destruct Hnd as [Hfresh Hnd].
  cbn [last_named]. destruct Hin as [->|Hin].
  - destruct (last_named (elementName e) l) as [e'|] eqn:Hl.
    + apply last_named_In in Hl. destruct Hl as [Hin' Hname].
      exfalso. apply Hfresh. rewrite <- Hname. apply in_map. exact Hin'.
    + rewrite jsstring_eqb_refl. reflexivity.
  - rewrite (IH Hnd Hin). reflexivity.
Qed.

Lemma last_named_perm (name : jsstring) (l l' : list WeatherElement) :
  NoDup (map elementName l) -> Permutation l l' ->
  last_named name l = last_named name l'.
Proof.
  intros Hnd Hperm.
  assert (Hnd' : NoDup (map elementName l'))
    by (eapply Permutation_NoDup; [apply Permutation_map; exact Hperm|exact Hnd]).
  destruct (last_named name l) as [e|] eqn:Hl.
  - apply last_named_In in Hl. destruct Hl as [Hin <-].
    symmetry. apply last_named_unique; [exact Hnd'|].
    eapply Permutation_in; eauto.
  - destruct (last_named name l') as [e'|] eqn:Hl'; [|reflexivity].
    apply last_named_In in Hl'. destruct Hl' as [Hin <-].
    rewrite last_named_unique in Hl; [discriminate Hl|exact Hnd|].
    eapply Permutation_in; [apply Permutation_sym; exact Hperm|exact Hin].
Qed.

(** X13.  When the elements after the first bear pairwise distinct names, their
    order does not matter: permuting them leaves the result of the
    normalizer unchanged, forecast or exception. *)
Theorem later_elements_order_irrelevant (records : Records)
    (name : jsstring) (e0 : WeatherElement)
    (rest rest' : list WeatherElement) :
  NoDup (map elementName rest) ->
  Permutation rest rest' ->
  buildWeatherData records
    {| locationName := name; weatherElement := e0 :: rest |} =
  buildWeatherData records
    {| locationName := name; weatherElement := e0 :: rest' |}.
Proof.
  intros Hnd Hperm.
  set (loc := {| locationName := name; weatherElement := e0 :: rest |}).
  set (loc' := {| locationName := name; weatherElement := e0 :: rest' |}).
  assert (Hw : weatherElement loc = e0 :: rest) by reflexivity.
  assert (Hw' : weatherElement loc' = e0 :: rest') by reflexivity.
  destruct (Forall_Exists_dec
              (fun e => length (time e0) <= length (time e))
              (fun e => le_dec (length (time e0)) (length (time e))) rest)
    as [HF|HE].
  - assert (HF' : Forall (fun e => length (time e0) <= length (time e)) rest').
    { rewrite Forall_forall in *. intros e He. apply HF.
      eapply Permutation_in; [apply Permutation_sym; exact Hperm|exact He]. }
    destruct (buildWeatherData_ok records loc Hw HF)
      as (fs & Hb & Hlen & Hnth).
    destruct (buildWeatherData_ok records loc' Hw' HF')
      as (fs' & Hb' & Hlen' & Hnth').
    rewrite Hb, Hb'. cbn [locationName loc loc']. do 2 f_equal.
    apply nth_error_ext. intros i.
    destruct (Nat.lt_ge_cases i (length (time e0))) as [Hi|Hi].
    + destruct (Hnth i Hi) as (p & Hp & Htimes & Hfields).
      destruct (Hnth' i Hi) as (q & Hq & Htimes' & Hfields').
      rewrite Hp, Hq. f_equal.
      destruct Htimes as (f1 & s1 & Hf1 & Hs1 & Hst & Hen).
      destruct Htimes' as (f2 & s2 & Hf2 & Hs2 & Hst' & Hen').
      cbn [nth_error] in Hf1, Hf2.
      inversion Hf1; subst f1. inversion Hf2; subst f2.
      rewrite Hs1 in Hs2. inversion Hs2; subst s2.
      apply ForecastPeriod_ext; [congruence|congruence|].
      intros k. specialize (Hfields k). specialize (Hfields' k).
      assert (Hsame : last_named (kind_name k) (e0 :: rest) =
                      last_named (kind_name k) (e0 :: rest')).
      { cbn [last_named].
        rewrite (last_named_perm (kind_name k) Hnd Hperm). reflexivity. }
      rewrite <- Hsame in Hfields'.
      destruct (last_named (kind_name k) (e0 :: rest)) as [e|].
      * destruct Hfields as (s & Hs & Hv).
        destruct Hfields' as (s' & Hs' & Hv').
        rewrite Hs in Hs'. inversion Hs'; subst s'. congruence.
      * congruence.
    + assert (H1 : nth_error fs i = None)
        by (apply nth_error_None; rewrite Hlen; exact Hi).
      assert (H2 : nth_error fs' i = None)
        by (apply nth_error_None; rewrite Hlen'; exact Hi).
      congruence.
  - assert (HE1 : Exists (fun e => length (time e) < length (time e0)) rest).
    { eapply Exists_impl; [|exact HE]. simpl. intros; lia. }
    assert (HE2 : Exists (fun e => length (time e) < length (time e0)) rest').
    { rewrite Exists_exists in *. destruct HE1 as (e & He & Hlt).
      exists e. split; [|exact Hlt]. eapply Permutation_in; eauto. }
    rewrite (buildWeatherData_throw records loc Hw HE1).
    rewrite (buildWeatherData_throw records loc' Hw' HE2). reflexivity.
Qed.

Lemma later_elements_order_irrelevant_witness :
  buildWeatherData sample_records
    {| locationName := taipei;
       weatherElement := [sample_Wx; sample_PoP; sample_MinT] |} =
  buildWeatherData sample_records
    {| locationName := taipei;
       weatherElement := [sample_Wx; sample_MinT; sample_PoP] |}.
Proof.
  apply (@later_elements_order_irrelevant sample_records taipei sample_Wx
           [sample_PoP; sample_MinT] [sample_MinT; sample_PoP]).
  - repeat constructor; simpl; intuition discriminate.
  - apply perm_swap.
Defined.

(* ================================================================== *)
(** ** Shorter inputs *)
(* ================================================================== *)

Lemma callback_truncate (m i : nat) (f : ForecastPeriod) (e : WeatherElement) :
  i < m -> callback i f (truncate m e) = callback i f e.
Proof.
  intros Hi. unfold callback, index_then_read, truncate.
  cbn [time elementName]. rewrite nth_error_firstn.
  apply Nat.ltb_lt in Hi. rewrite Hi. reflexivity.
Qed.

Lemma forEach_truncate (m i : nat) (l : list WeatherElement) :
  i < m -> forall f, forEach i (map (truncate m) l) f = forEach i l f.
Proof.
  intros Hi. induction l as [|e l IH]; intros f; [reflexivity|].
  cbn [map forEach]. rewrite (callback_truncate f e Hi).
  destruct (callback i f e) as [f'|err]; cbn [bind]; [apply IH|reflexivity].
Qed.

Lemma iteration_truncate (m i : nat) (l : list WeatherElement) :
  i < m -> iteration (map (truncate m) l) i = iteration l i.
Proof.
  intros Hi. unfold iteration.
  destruct l as [|e0 rest]; [reflexivity|].
  unfold index_then_read. cbn [map nth_error bind].
  change (truncate m e0 :: map (truncate m) rest)
    with (map (truncate m) (e0 :: rest)).
  cbn [truncate time]. rewrite nth_error_firstn.
  pose proof Hi as Hb. apply Nat.ltb_lt in Hb. rewrite Hb.
  destruct (nth_error (time e0) i) as [slot0|]; cbn [bind]; [|reflexivity].
  apply (forEach_truncate (e0 :: rest) Hi).
Qed.

Lemma for_loop_truncate (m : nat) (l : list WeatherElement) (n : nat) :
  forall i acc,
    i + n <= m ->
    for_loop (map (truncate m) l) n i acc = for_loop l n i acc.
Proof.
  induction n as [|n IH]; intros i acc Hi; [reflexivity|].
  cbn [for_loop]. rewrite iteration_truncate by lia.
  destruct (iteration l i) as [p|err]; cbn [bind]; [|reflexivity].
  apply IH. lia.
Qed.

(** [n + k] iterations are [n] iterations followed by [k] more. *)
Lemma for_loop_split (l : list WeatherElement) (n k : nat) :
  forall i acc,
    for_loop l (n + k) i acc =
    (mid <- for_loop l n i acc ;; for_loop l k (i + n) mid).
Proof.
  induction n as [|n IH]; intros i acc.
  - cbn [for_loop bind Nat.add]. rewrite Nat.add_0_r. reflexivity.
  - cbn [for_loop Nat.add].
    destruct (iteration l i) as [p|err]; cbn [bind]; [|reflexivity].
    rewrite IH, Nat.add_succ_r. reflexivity.
Qed.

Lemma for_loop_prefix (l : list WeatherElement) (n total : nat)
    (fs : list ForecastPeriod) :
  n <= total ->
  for_loop l total 0 [] = Ok fs ->
  for_loop l n 0 [] = Ok (firstn n fs).
Proof.
  intros Hn Hfs.
  replace total with (n + (total - n)) in Hfs by lia.
  rewrite for_loop_split in Hfs.
  destruct (for_loop l n 0 []) as [mid|err] eqn:Hmid; cbn [bind] in Hfs;
    [|discriminate Hfs].
  apply for_loop_appends in Hmid. destruct Hmid as (mid' & -> & Hlen).
  apply for_loop_appends in Hfs. destruct Hfs as (pushed & -> & _).
  cbn [app]. rewrite firstn_app, Hlen, Nat.sub_diag, firstn_O, app_nil_r.
  rewrite firstn_all2 by lia. reflexivity.
Qed.

(** X14.  Cutting every element down to its first [m] slots cuts a returned
    forecast down to its first [m] records, and changes nothing else. *)
Theorem truncated_input_gives_prefix (records : Records) (name : jsstring)
    (elems : list WeatherElement) (m : nat) (w : NormalizedForecast) :
  buildWeatherData records
    {| locationName := name; weatherElement := elems |} = Ok w ->
  buildWeatherData records
    {| locationName := name;
       weatherElement := map (truncate m) elems |} =
  Ok {| city := city w; updateTime := updateTime w;
        forecasts := firstn m (forecasts w) |}.
Proof.
  unfold buildWeatherData, index_then_read.
  cbn [weatherElement locationName].
  destruct elems as [|e0 rest]; cbn [map nth_error bind]; [discriminate|].
  change (truncate m e0 :: map (truncate m) rest)
    with (map (truncate m) (e0 :: rest)).
  destruct (for_loop (e0 :: rest) (length (time e0)) 0 []) as [fs|err] eqn:Hfs;
    cbn [bind]; [|discriminate].
  intros Hw. inversion Hw; subst w. cbn [city updateTime forecasts].
  cbn [truncate time]. rewrite length_firstn.
  rewrite for_loop_truncate by (simpl; apply Nat.le_min_l).
  rewrite (@for_loop_prefix (e0 :: rest) (Nat.min m (length (time e0)))
             (length (time e0)) fs (Nat.le_min_r _ _) Hfs).
  cbn [bind]. do 2 f_equal.
  apply for_loop_appends in Hfs. destruct Hfs as (fs' & -> & Hlen).
  cbn [app]. rewrite <- Hlen.
  destruct (Nat.min_spec m (length fs')) as [[Hlt ->]|[Hge ->]];
    [reflexivity|].
  rewrite firstn_all, firstn_all2 by exact Hge. reflexivity.
Qed.

Lemma truncated_input_gives_prefix_witness :
  exists fs,
    buildWeatherData sample_records sample_location =
      Ok {| city := taipei; updateTime := str "36-hour forecast";
            forecasts := fs |} /\
    length fs = 2 /\
    buildWeatherData sample_records
      {| locationName := taipei;
         weatherElement :=
           map (truncate 1) [sample_Wx; sample_PoP; sample_UVI] |} =
      Ok {| city := taipei; updateTime := str "36-hour forecast";
            forecasts := firstn 1 fs |}.
Proof.
  destruct (buildWeatherData sample_records sample_location) as [w|err] eqn:Hb;
    [|vm_compute in Hb; discriminate Hb].
  pose proof (@truncated_input_gives_prefix sample_records taipei
                [sample_Wx; sample_PoP; sample_UVI] 1 w Hb) as Ht.
  revert Ht. vm_compute in Hb. inversion Hb; subst w. intros Ht.
  eexists. split; [reflexivity|]. split; [reflexivity|]. exact Ht.
Defined.

(* ================================================================== *)
(** ** Failures and the log *)
(* ================================================================== *)

(** X6.  When the normalizer throws, on whatever input, no part of a forecast
    leaves the handler: the answer is 500 with the exception's message
    under [error], and the message is logged with the substituted city
    name. *)
Theorem normalizer_failure_is_500
    (upstream : jsstring -> AxiosParams -> axios_outcome)
    (env : Env) (req : Request) (records : Records)
    (loc : RawLocationForecast) (others : list RawLocationForecast)
    (err : js_error) :
  upstream outbound_url (outbound_params env req) = Resolved records ->
  location records = loc :: others ->
  buildWeatherData records loc = Throw err ->
  response_of upstream env req =
    {| status := 500;
       body := JObject [ (str "error", JString (error_message err)) ] |} /\
  trace_of upstream env req =
    [ Requested outbound_url (outbound_params env req);
      Logged [ str "Get Weather Error (" ++ replace_tai (params_city req)
               ++ str "):";
               error_message err ] ].
Proof.
  intros Hup Hloc Hb.
  rewrite response_of_eq, trace_of_cases, Hup. unfold try_block.
  rewrite Hloc. cbn [nth_error]. rewrite Hb. cbn [bind].
  destruct (buildWeatherData_throws records loc Hb) as [-> | ->];
    split; reflexivity.
Qed.

Lemma normalizer_failure_is_500_witness :
  trace_of
    (upstream_resolving (records_with [location_with [sample_Wx; short_PoP]]))
    sample_env sample_request =
  [ Requested outbound_url (outbound_params sample_env sample_request);
    Logged [ str "Get Weather Error (" ++ taipei ++ str "):";
             str "Cannot read properties of undefined (reading 'parameter')" ] ].
Proof.
  destruct (@normalizer_failure_is_500
              (upstream_resolving
                 (records_with [location_with [sample_Wx; short_PoP]]))
              sample_env sample_request
              (records_with [location_with [sample_Wx; short_PoP]])
              (location_with [sample_Wx; short_PoP]) []
              (TypeError (str "parameter")) eq_refl eq_refl eq_refl)
    as [_ Htr].
  exact Htr.
Defined.

(** X7.  The log has a line exactly for the responses whose body is an
    [{error: ...}] object, and never more than one: a forecast and the
    unknown-city 404 are not logged, every answer of the [catch] clause
    is. *)
Theorem log_iff_error_body
    (upstream : jsstring -> AxiosParams -> axios_outcome)
    (env : Env) (req : Request) :
  ((exists args, In (Logged args) (trace_of upstream env req)) <->
   (exists v, body (response_of upstream env req) =
              JObject [ (str "error", v) ])) /\
  length (trace_of upstream env req) <= 2.
Proof.
  rewrite response_of_eq, trace_of_cases.
  destruct (try_block req (upstream outbound_url (outbound_params env req)))
    as [response|err] eqn:Htry.
  - split; [split|simpl; lia].
    + intros [args [H|[]]]. discriminate H.
    + intros [v Hv]. exfalso.
      unfold try_block in Htry.
      destruct (upstream outbound_url (outbound_params env req))
        as [records|m r]; [|discriminate Htry].
      destruct (nth_error (location records) 0) as [loc|].
      * destruct (buildWeatherData records loc) as [w|e]; cbn [bind] in Htry;
          [|discriminate Htry].
        inversion Htry; subst response. discriminate Hv.
      * inversion Htry; subst response. discriminate Hv.
  - split; [split|simpl; lia].
    + intros _. unfold catch_block.
      destruct (error_response err); eexists; reflexivity.
    + intros _. eexists. right. left. reflexivity.
Qed.
